(** * RedisAI background workers: per-device run queues and the worker loop

    A shallow embedding of [src/background_workers.c]:
    - [strToUpper], [freeRunQueueInfo] and [ensureRunQueue] (the run queue
      registry), over an explicit heap of allocated blocks;
    - [RedisAI_Run_ThreadMain] (the worker loop), split along its loops:
      the scan over the queue ([scan_items], [scan_next_items]) and one
      pass of the body of [while (run_queue_len > 0)]
      ([RedisAI_Run_ThreadMain_step]).

    C [int] values are [Z]; [size_t] values are [Z] in [0, 2^64) and their
    addition wraps; pointers are addresses ([nat]), [NULL] is [None]. *)

From Stdlib Require Import ZArith Lia Ascii String.
From stdpp Require Import gmap strings list.

Local Open Scope Z_scope.

(** ** Pointers and integer constants *)

Definition RunInfo := nat.   (* RedisAI_RunInfo *  *)
Definition Client := nat.    (* RedisModuleBlockedClient * *)
Bind Scope nat_scope with RunInfo Client.

Definition REDISMODULE_OK : Z := 0.
Definition REDISMODULE_ERR : Z := 1.

(** [size_t] addition on a 64-bit target. *)
Definition size_add (a b : Z) : Z := (a + b) mod 2 ^ 64.

(** ** The device queue *)

Module Queue.

(** Modelled from the spec: the queue item of util/queue.h, which is
    missing from the sources; a node carrying a reference to a run info.
    [addr] is the address of the node; the forward linkage is the order of
    the list the node is in. *)
Record queueItem := { addr : nat; value : RunInfo }.

(** Modelled from the spec: the device queue of util/queue.h and
    util/queue.c, which are missing from the sources.  It is an ordered
    sequence with push at the back and at the front, pop at the front,
    front, next, removal of a given node, and length.  [next_addr] is the
    address the next allocated node receives. *)
Record queue := { items : list queueItem; next_addr : nat }.

(** Modelled from the spec: the queue operations below, missing with
    util/queue.c.  A push allocates a fresh node for the run info; pop
    and evict unlink a node and hand it to the caller without freeing
    it. *)
Definition queueCreate : queue := {| items := []; next_addr := 0 |}.

Definition queueLength (q : queue) : Z := Z.of_nat (length (items q)).

Definition queueFront (q : queue) : option queueItem := head (items q).

Definition queuePush (q : queue) (v : RunInfo) : queue :=
  {| items := items q ++ [ {| addr := next_addr q; value := v |} ];
     next_addr := S (next_addr q) |}.

Definition queuePushFront (q : queue) (v : RunInfo) : queue :=
  {| items := {| addr := next_addr q; value := v |} :: items q;
     next_addr := S (next_addr q) |}.

Definition queuePop (q : queue) : option queueItem * queue :=
  match items q with
  | [] => (None, q)
  | it :: rest => (Some it, {| items := rest; next_addr := next_addr q |})
  end.

(** Unlink the node at address [a]. *)
Fixpoint unlink (a : nat) (l : list queueItem) : list queueItem :=
  match l with
  | [] => []
  | it :: rest => if Nat.eqb (addr it) a then rest else it :: unlink a rest
  end.

Definition queueEvict (q : queue) (it : queueItem) : queue :=
  {| items := unlink (addr it) (items q); next_addr := next_addr q |}.

(** The run infos in the queue, front first. *)
Definition values (q : queue) : list RunInfo := value <$> items q.

End Queue.

Export Queue.

(** ** The interfaces the worker consumes *)

(** Out-parameters of [RedisAI_DagCurrentOpAndInfo]. *)
Record OpAndInfo (Op : Type) := {
  currentOp : Op;
  currentOpReady : Z;
  currentOpBatchable : Z;
  deviceComplete : Z;
  dagComplete : Z
}.
Arguments currentOp {Op} _.
Arguments currentOpReady {Op} _.
Arguments currentOpBatchable {Op} _.
Arguments deviceComplete {Op} _.
Arguments dagComplete {Op} _.

(** Out-parameters of [RedisAI_DagOpBatchInfo] (all [size_t]). *)
Record BatchInfo := { batchsize : Z; minbatchsize : Z; inbatchsize : Z }.

(** Modelled from the spec: the DAG inspection interface, the execution
    interface and the fields of a run info the worker reads; dag.c and
    run_info.h are missing from the sources.  [World] is the shared state
    of all DAG runs.  The inspection functions only read it; the
    execution functions return the state they leave behind.  Values
    declared [size_t] in the C code are meant in [0, 2^64).  [peers] is
    whatever the other threads do to the queue and to the shared state
    between the unlock before a run and the lock after it. *)
Class DagInterface := {
  World : Type;
  Op : Type;
  RedisAI_DagCurrentOpAndInfo : World → RunInfo → string → OpAndInfo Op;
  RedisAI_DagOpBatchInfo : World → RunInfo → Op → BatchInfo;
  RedisAI_DagOpBatchingMatch : World → RunInfo → Op → RunInfo → Op → Z * Z;
  RedisAI_DagRunSessionStep : World → RunInfo → string → World;
  RedisAI_BatchedDagRunSessionStep : World → list RunInfo → string → World;
  dagError : World → RunInfo → Z;
  dagRefCount : World → RunInfo → Z;
  client : World → RunInfo → option Client;
  peers : queue → World → queue * World
}.

(** ** The worker loop *)

(** What a worker does that the rest of the system can observe. *)
Inductive event :=
| EvRun (rinfo : RunInfo) (devicestr : string)
| EvBatchedRun (batch_rinfo : list RunInfo) (devicestr : string)
| EvUnblock (c : Client) (rinfo : RunInfo)
| EvFree (item : nat)
| EvSleep (usec : Z).

(** The four decision variables of the loop body. *)
Record flags := {
  do_unblock : bool;
  do_run : bool;
  do_retry : bool;
  device_complete : bool
}.

Definition flags0 : flags :=
  {| do_unblock := false; do_run := false; do_retry := false;
     device_complete := false |}.

Section WorkerLoop.
Context {E : DagInterface}.
Variable devicestr : string.   (* run_queue_info->devicestr *)

(** The inner [while (next_item != NULL)] loop: walk the items behind
    the candidate head and collect the ones that can join its batch. *)
Fixpoint scan_next_items (w : World) (rinfo : RunInfo) (headOp : Op)
    (batchsize : Z) (next_items : list queueItem)
    (evicted_items : list queueItem) (current_batchsize : Z)
    : list queueItem * Z :=
  match next_items with
  | [] => (evicted_items, current_batchsize)
  | next_item :: rest =>
      let next_rinfo := value next_item in
      let n := RedisAI_DagCurrentOpAndInfo w next_rinfo devicestr in
      if (currentOpReady n =? 0) || (currentOpBatchable n =? 0) then
        scan_next_items w rinfo headOp batchsize rest
          evicted_items current_batchsize
      else
        let '(batched, next_batchsize) :=
          RedisAI_DagOpBatchingMatch w rinfo headOp
            next_rinfo (currentOp n) in
        if batched =? 0 then
          scan_next_items w rinfo headOp batchsize rest
            evicted_items current_batchsize
        else if size_add current_batchsize next_batchsize >? batchsize then
          (evicted_items, current_batchsize)
        else
          scan_next_items w rinfo headOp batchsize rest
            (evicted_items ++ [next_item])
            (size_add current_batchsize next_batchsize)
  end.

(** The [while (item)] loop.  [None] is the exit with [item == NULL];
    otherwise the flags and the evicted items, the candidate head
    first. *)
Fixpoint scan_items (w : World) (fl : flags) (l : list queueItem)
    : option (flags * list queueItem) :=
  match l with
  | [] => None
  | item :: rest =>
      let rinfo := value item in
      let i := RedisAI_DagCurrentOpAndInfo w rinfo devicestr in
      if negb (dagComplete i =? 0) then
        Some ({| do_unblock := true; do_run := do_run fl;
                 do_retry := do_retry fl;
                 device_complete := device_complete fl |}, [item])
      else if negb (deviceComplete i =? 0) then
        Some ({| do_unblock := false; do_run := false; do_retry := false;
                 device_complete := true |}, [item])
      else if currentOpReady i =? 0 then
        Some ({| do_unblock := false; do_run := false; do_retry := true;
                 device_complete := device_complete fl |}, [item])
      else
        let fl1 := {| do_unblock := false; do_run := true;
                      do_retry := do_retry fl;
                      device_complete := device_complete fl |} in
        if currentOpBatchable i =? 0 then Some (fl1, [item])
        else
          let b := RedisAI_DagOpBatchInfo w rinfo (currentOp i) in
          let current_batchsize := inbatchsize b in
          if (current_batchsize =? 0) || (current_batchsize >=? batchsize b)
          then Some (fl1, [item])
          else
            let '(evicted_items, current_batchsize) :=
              scan_next_items w rinfo (currentOp i) (batchsize b) rest
                [item] current_batchsize in
            if (minbatchsize b =? 0)
               || (current_batchsize >=? minbatchsize b)
            then Some (fl1, evicted_items)
            else scan_items w fl1 rest
  end.

(** The loop over [batch_rinfo] after a run: [run_error] is overwritten
    at every pass; a client is unblocked when its DAG has an error, its
    reference count is zero and the client is still there. *)
Fixpoint error_loop (w : World) (batch_rinfo : list RunInfo)
    (run_error : Z) : Z * list event :=
  match batch_rinfo with
  | [] => (run_error, [])
  | rinfo :: rest =>
      let dagError := dagError w rinfo in
      let dagRefCount := dagRefCount w rinfo in
      let unblock :=
        match client w rinfo with
        | Some c =>
            if negb (dagError =? 0) && (dagRefCount =? 0)
            then [EvUnblock c rinfo] else []
        | None => []
        end in
      let '(run_error, tr) := error_loop w rest dagError in
      (run_error, unblock ++ tr)
  end.

(** [if (do_unblock == 1)]: the DAG-complete path. *)
Definition unblock_path (w : World) (evicted_rinfo : RunInfo)
    : list event :=
  match client w evicted_rinfo with
  | Some c =>
      if dagRefCount w evicted_rinfo =? 0
      then [EvUnblock c evicted_rinfo] else []
  | None => []
  end.

(** [if (do_retry == 1)]: give way to the next item, or sleep. *)
Definition retry_requeue (q : queue) (evicted_rinfo : RunInfo)
    : queue * list event :=
  if queueLength q >? 0 then
    match queuePop q with
    | (Some next_item, q1) =>
        let next_rinfo := value next_item in
        (queuePushFront (queuePushFront q1 evicted_rinfo) next_rinfo, [])
    | (None, q1) => (q1, [])
    end
  else
    (queuePushFront q evicted_rinfo, [EvSleep 1000]).

(** [if (do_run == 1 && run_error == 0)]: push the evicted run infos
    back at the front, the last one first. *)
Definition requeue_evicted (q : queue) (evicted_items : list queueItem)
    : queue :=
  foldr (λ it q, queuePushFront q (value it)) q evicted_items.

(** The effects of the run itself, between unlock and lock. *)
Definition run_step (w : World) (batch_rinfo : list RunInfo)
    : World * list event :=
  if (1 <? length batch_rinfo)%nat then
    (RedisAI_BatchedDagRunSessionStep w batch_rinfo devicestr,
     [EvBatchedRun batch_rinfo devicestr])
  else
    match batch_rinfo with
    | rinfo :: _ =>
        (RedisAI_DagRunSessionStep w rinfo devicestr,
         [EvRun rinfo devicestr])
    | [] => (w, [])
    end.

(** Everything after the scan, for the flags and evicted items it
    selected: evict, run, look for errors, unblock, requeue, free. *)
Definition process_evicted (q : queue) (w : World) (fl : flags)
    (evicted_items : list queueItem) : queue * World * list event :=
  let q1 := foldl queueEvict q evicted_items in
  let batch_rinfo := value <$> evicted_items in
  let '(q2, w2, run_error, tr_run) :=
    if do_run fl then
      let '(w1, tr) := run_step w batch_rinfo in
      let '(q2, w2) := peers q1 w1 in
      let '(run_error, tr_err) := error_loop w2 batch_rinfo 0 in
      (q2, w2, run_error, tr ++ tr_err)
    else (q1, w, 0, []) in
  let tr_unblock :=
    match do_unblock fl, evicted_items with
    | true, it :: _ => unblock_path w2 (value it)
    | _, _ => []
    end in
  let '(q3, tr_retry) :=
    match do_retry fl, evicted_items with
    | true, it :: _ => retry_requeue q2 (value it)
    | _, _ => (q2, [])
    end in
  let q4 :=
    if do_run fl && (run_error =? 0)
    then requeue_evicted q3 evicted_items else q3 in
  let tr_free :=
    if device_complete fl || do_unblock fl || (run_error =? 1)
    then EvFree <$> (addr <$> evicted_items) else [] in
  (q4, w2, tr_run ++ tr_unblock ++ tr_retry ++ tr_free).

(** One pass of the body of [while (run_queue_len > 0)].  [None]: the
    scan ended with [item == NULL]; the worker unlocks, leaves the loop
    and waits on the condition variable. *)
Definition RedisAI_Run_ThreadMain_step (q : queue) (w : World)
    : option (queue * World * list event) :=
  match scan_items w flags0 (items q) with
  | None => None
  | Some (fl, evicted_items) => Some (process_evicted q w fl evicted_items)
  end.

(** [while (run_queue_len > 0)], for at most [n] passes.  The boolean
    tells whether the worker left the loop (to wait) within [n] passes. *)
Fixpoint RedisAI_Run_ThreadMain_drain (n : nat) (q : queue) (w : World)
    : queue * World * list event * bool :=
  match n with
  | O => (q, w, [], false)
  | S n' =>
      if queueLength q >? 0 then
        match RedisAI_Run_ThreadMain_step q w with
        | None => (q, w, [], true)
        | Some (q1, w1, tr1) =>
            let '(q2, w2, tr2, waits) :=
              RedisAI_Run_ThreadMain_drain n' q1 w1 in
            (q2, w2, tr1 ++ tr2, waits)
        end
      else (q, w, [], true)
  end.

End WorkerLoop.

(** ** A single-device environment to run the worker on

    Each DAG run is the list of its operations still to execute on the
    device of the queue, a flag telling whether operations on other
    devices are still pending, and the three fields the worker reads. *)

Module TestEnv.

Record TOp := {
  op_model : nat;          (* 0: not a model run *)
  op_batchsize : Z;
  op_minbatchsize : Z;
  op_in : Z;               (* size along the 0-th dimension *)
  op_ready : bool;
  op_fails : bool
}.

Record TDag := {
  ops : list TOp;
  elsewhere : bool;
  err : Z;
  refs : Z;
  cli : option Client
}.

Definition no_op : TOp :=
  {| op_model := 0; op_batchsize := 0; op_minbatchsize := 0; op_in := 0;
     op_ready := false; op_fails := false |}.

Definition model_op (m : nat) (b minb n : Z) : TOp :=
  {| op_model := m; op_batchsize := b; op_minbatchsize := minb; op_in := n;
     op_ready := true; op_fails := false |}.

Definition failing (o : TOp) : TOp :=
  {| op_model := op_model o; op_batchsize := op_batchsize o;
     op_minbatchsize := op_minbatchsize o; op_in := op_in o;
     op_ready := op_ready o; op_fails := true |}.

Definition script_op (ready : bool) : TOp :=
  {| op_model := 0; op_batchsize := 0; op_minbatchsize := 0; op_in := 0;
     op_ready := ready; op_fails := false |}.

Definition bool_int (b : bool) : Z := if b then 1 else 0.

Definition info (w : gmap nat TDag) (r : RunInfo) (_ : string)
    : OpAndInfo TOp :=
  match w !! r with
  | None =>
      {| currentOp := no_op; currentOpReady := 0; currentOpBatchable := 0;
         deviceComplete := 1; dagComplete := 1 |}
  | Some d =>
      match ops d with
      | [] =>
          {| currentOp := no_op; currentOpReady := 0;
             currentOpBatchable := 0; deviceComplete := 1;
             dagComplete := bool_int (negb (elsewhere d)) |}
      | o :: _ =>
          {| currentOp := o; currentOpReady := bool_int (op_ready o);
             currentOpBatchable :=
               bool_int (negb (Nat.eqb (op_model o) 0)
                         && (0 <? op_batchsize o));
             deviceComplete := 0; dagComplete := 0 |}
      end
  end.

Definition batch_info (_ : gmap nat TDag) (_ : RunInfo) (o : TOp)
    : BatchInfo :=
  {| batchsize := op_batchsize o; minbatchsize := op_minbatchsize o;
     inbatchsize := op_in o |}.

Definition batching_match (_ : gmap nat TDag) (_ : RunInfo) (o : TOp)
    (_ : RunInfo) (o' : TOp) : Z * Z :=
  (bool_int (Nat.eqb (op_model o) (op_model o')), op_in o').

(** Execute the current operation: it leaves the list; a failing one
    sets the error; the reference of this device is given up when the
    operation failed or was the last one of the whole DAG. *)
Definition step (w : gmap nat TDag) (r : RunInfo) (_ : string)
    : gmap nat TDag :=
  match w !! r with
  | Some d =>
      match ops d with
      | o :: rest =>
          let over :=
            op_fails o
            || (negb (elsewhere d) && bool_decide (rest = [])) in
          <[ r := {| ops := rest; elsewhere := elsewhere d;
                     err := if op_fails o then 1 else err d;
                     refs := if over then refs d - 1 else refs d;
                     cli := cli d |} ]> w
      | [] => w
      end
  | None => w
  end.

Definition batched_step (w : gmap nat TDag) (rs : list RunInfo)
    (dev : string) : gmap nat TDag :=
  foldl (λ w r, step w r dev) w rs.

Definition field {A} (f : TDag → A) (dflt : A) (w : gmap nat TDag)
    (r : RunInfo) : A :=
  match w !! r with Some d => f d | None => dflt end.

#[global] Instance env : DagInterface := {|
  World := gmap nat TDag;
  Op := TOp;
  RedisAI_DagCurrentOpAndInfo := info;
  RedisAI_DagOpBatchInfo := batch_info;
  RedisAI_DagOpBatchingMatch := batching_match;
  RedisAI_DagRunSessionStep := step;
  RedisAI_BatchedDagRunSessionStep := batched_step;
  dagError := field err 0;
  dagRefCount := field refs 0;
  client := field cli None;
  peers := λ q w, (q, w)
|}.

(** A DAG run of one client on this device only. *)
Definition dag (c : Client) (l : list TOp) : TDag :=
  {| ops := l; elsewhere := false; err := 0; refs := 1; cli := Some c |}.

(** Enqueue run infos [0 .. n-1] in order. *)
Definition enqueue_all (n : nat) : queue :=
  foldl queuePush queueCreate (seq 0 n).

Definition world_of (l : list TDag) : gmap nat TDag :=
  list_to_map (zip (seq 0 (length l)) l).

End TestEnv.

(** ** The run queue registry *)

(** [toupper] in the C locale: the letters [a]..[z] move to [A]..[Z]. *)
Definition toupper (c : ascii) : ascii :=
  let n := nat_of_ascii c in
  if (97 <=? n)%nat && (n <=? 122)%nat then ascii_of_nat (n - 32) else c.

(** [strToUpper]: a copy of the input with every character upper-cased.
    (The allocation of the copy is accounted for where it is called.) *)
Fixpoint strToUpper (input : string) : string :=
  match input with
  | EmptyString => EmptyString
  | String c rest => String (toupper c) (strToUpper rest)
  end.

Module Registry.

(** What an allocated block holds.  A slot of the thread array is [None]
    until [pthread_create] has written a handle into it. *)
Inductive block :=
| BString (s : string)
| BQueue (q : queue)
| BThreads (handles : list (option nat))
| BInfo (run_queue devicestr threads : option nat).

(** Modelled from the spec: the registry dictionary of util/dict.h,
    which is missing from the sources, is a mapping from device name to
    record.  The state is the global [run_queues] dictionary ([None]
    while it is [NULL]), the heap of [RedisModule_Alloc], the worker
    threads that were started (each runs [RedisAI_Run_ThreadMain] on the
    record it was given), and the number of calls of [pthread_create] so
    far. *)
Record state := {
  run_queues : option (gmap string nat);
  heap : gmap nat block;
  workers : gmap nat nat;
  spawn_calls : nat
}.

(** Result of a call: it returns a code, what it stored in
    [*run_queue_info] if anything, and the state; or it never returns,
    blocked in [pthread_join]. *)
Inductive outcome :=
| Returned (rc : Z) (run_queue_info : option nat) (s : state)
| Blocked (s : state).

Definition RedisModule_Alloc (b : block) (s : state) : nat * state :=
  let a := fresh (dom (heap s)) in
  (a, {| run_queues := run_queues s; heap := <[a := b]> (heap s);
         workers := workers s; spawn_calls := spawn_calls s |}).

Definition RedisModule_Free (a : nat) (s : state) : state :=
  {| run_queues := run_queues s; heap := delete a (heap s);
     workers := workers s; spawn_calls := spawn_calls s |}.

Definition store (a : nat) (b : block) (s : state) : state :=
  {| run_queues := run_queues s; heap := <[a := b]> (heap s);
     workers := workers s; spawn_calls := spawn_calls s |}.

Definition AI_dictAdd (key : string) (val : nat) (s : state) : state :=
  {| run_queues := (λ d, <[key := val]> d) <$> run_queues s;
     heap := heap s; workers := workers s;
     spawn_calls := spawn_calls s |}.

Section Calls.
(** The configured pool size; the return code of the [k]-th call of
    [pthread_create]; and [pthread_join] on the content of a slot,
    which returns a code or does not return. *)
Variable perqueueThreadPoolSize : Z.
Variable pthread_create : nat → Z.
Variable pthread_join : state → option nat → option Z.

(** The loop [for (i = 0; i < perqueueThreadPoolSize; i++)] of
    [freeRunQueueInfo], over the slots of the thread array. *)
Fixpoint join_loop (s : state) (slots : list (option nat)) (result : Z)
    : option Z :=
  match slots with
  | [] => Some result
  | slot :: rest =>
      match pthread_join s slot with
      | None => None
      | Some rtn =>
          join_loop s rest (if rtn =? 0 then result else REDISMODULE_ERR)
      end
  end.

Definition free_opt (p : option nat) (s : state) : state :=
  match p with Some a => RedisModule_Free a s | None => s end.

(** The code is [None] when the call blocks in a join; the state is
    then the one reached at that point. *)
Definition freeRunQueueInfo (info : nat) (s : state)
    : option Z * state :=
  match heap s !! info with
  | Some (BInfo run_queue devicestr threads) =>
      let s1 := free_opt run_queue s in
      let s2 := free_opt devicestr s1 in
      match threads with
      | Some t =>
          let slots :=
            match heap s2 !! t with
            | Some (BThreads handles) =>
                take (Z.to_nat perqueueThreadPoolSize) handles
            | _ => []
            end in
          match join_loop s2 slots REDISMODULE_OK with
          | None => (None, s2)
          | Some result =>
              (Some result,
               RedisModule_Free info (RedisModule_Free t s2))
          end
      | None => (Some REDISMODULE_OK, RedisModule_Free info s2)
      end
  | _ => (Some REDISMODULE_OK, s)
  end.

(** The thread creation loop of [ensureRunQueue], [n] passes from
    index [i].  [false]: a [pthread_create] failed. *)
Fixpoint create_threads (n : nat) (i : nat) (info threads : nat)
    (s : state) : bool * state :=
  match n with
  | O => (true, s)
  | S n' =>
      let k := spawn_calls s in
      if negb (pthread_create k =? 0) then
        (false, {| run_queues := run_queues s; heap := heap s;
                   workers := workers s; spawn_calls := S k |})
      else
        let handles :=
          match heap s !! threads with
          | Some (BThreads handles) => handles
          | _ => []
          end in
        create_threads n' (S i) info threads
          {| run_queues := run_queues s;
             heap := <[threads := BThreads (<[i := Some k]> handles)]>
                       (heap s);
             workers := <[k := info]> (workers s);
             spawn_calls := S k |}
  end.

(** [ensureRunQueue].  The condition variable and the mutex of a new
    record live inside the record and their initialisation changes
    nothing that is tracked here. *)
Definition ensureRunQueue (devicestr : string) (s : state) : outcome :=
  match run_queues s with
  | None => Returned REDISMODULE_ERR None s
  | Some d =>
      let '(devicestr_, s1) :=
        RedisModule_Alloc (BString (strToUpper devicestr)) s in
      match d !! strToUpper devicestr with
      | Some entry =>
          Returned REDISMODULE_OK (Some entry)
            (RedisModule_Free devicestr_ s1)
      | None =>
          let '(info, s2) :=
            RedisModule_Alloc (BInfo None None None) s1 in
          let '(run_queue, s3) :=
            RedisModule_Alloc (BQueue queueCreate) s2 in
          let '(dev, s4) :=
            RedisModule_Alloc (BString (strToUpper devicestr)) s3 in
          let n := Z.to_nat perqueueThreadPoolSize in
          let '(threads, s5) :=
            RedisModule_Alloc (BThreads (replicate n None)) s4 in
          let s6 :=
            store info
              (BInfo (Some run_queue) (Some dev) (Some threads)) s5 in
          match create_threads n 0 info threads s6 with
          | (false, s7) =>
              match freeRunQueueInfo info s7 with
              | (Some _, s8) => Returned REDISMODULE_ERR (Some info) s8
              | (None, s8) => Blocked s8
              end
          | (true, s7) =>
              let s8 := AI_dictAdd (strToUpper devicestr) info s7 in
              Returned REDISMODULE_OK (Some info)
                (RedisModule_Free devicestr_ s8)
          end
      end
  end.

End Calls.

(** The registry right after initialisation: an empty dictionary. *)
Definition init : state :=
  {| run_queues := Some ∅; heap := ∅; workers := ∅; spawn_calls := 0 |}.

(** A join that returns success on a slot never written and on a thread
    that is not a running worker, and blocks on a running worker (a
    worker never leaves [while (true)]). *)
Definition join_live (s : state) (slot : option nat) : option Z :=
  match slot with
  | Some t => match workers s !! t with Some _ => None | None => Some 0 end
  | None => Some 0
  end.

End Registry.

(** ** Vocabulary of the statements *)

Section Vocabulary.
Context {E : DagInterface}.
Variable devicestr : string.

Definition info_of (w : World) (it : queueItem) : OpAndInfo Op :=
  RedisAI_DagCurrentOpAndInfo w (value it) devicestr.

Definition batch_info_of (w : World) (it : queueItem) : BatchInfo :=
  RedisAI_DagOpBatchInfo w (value it) (currentOp (info_of w it)).

(** What [RedisAI_DagOpBatchingMatch] reports for [it] against the
    candidate head [h]. *)
Definition match_of (w : World) (h it : queueItem) : Z * Z :=
  RedisAI_DagOpBatchingMatch w (value h) (currentOp (info_of w h))
    (value it) (currentOp (info_of w it)).

(** The aggregate size of a batch along the 0-th dimension, as a
    mathematical sum: the size of the head's input plus the
    contributions of the items that joined. *)
Definition batch_total (w : World) (batch : list queueItem) : Z :=
  match batch with
  | [] => 0
  | h :: others =>
      inbatchsize (batch_info_of w h)
      + foldr (λ it acc, (match_of w h it).2 + acc) 0 others
  end.

(** [it] passes the three tests of the inner loop against the candidate
    head [h]: its current op is ready, batchable, and reported as
    matching the head's. *)
Definition joins (w : World) (h it : queueItem) : bool :=
  negb (currentOpReady (info_of w it) =? 0)
  && negb (currentOpBatchable (info_of w it) =? 0)
  && negb ((match_of w h it).1 =? 0).

(** The value of [current_batchsize] once the items [joined] have been
    added to the batch of the head [h], one [size_t] addition each. *)
Definition running_size (w : World) (h : queueItem)
    (joined : list queueItem) : Z :=
  foldl (λ current_batchsize it,
           size_add current_batchsize (match_of w h it).2)
    (inbatchsize (batch_info_of w h)) joined.

(** The target of the head and the sizes of the participating ops are in
    the signed 64-bit range of a tensor dimension. *)
Definition dims_in_range (w : World) (h : queueItem)
    (joined : list queueItem) : Prop :=
  batchsize (batch_info_of w h) < 2 ^ 63
  ∧ 0 ≤ inbatchsize (batch_info_of w h)
  ∧ Forall (λ it, 0 ≤ (match_of w h it).2 < 2 ^ 63) joined.

(** The candidate head [it] is ready and batchable and its own input is
    neither empty nor already as large as the target: the scan goes on
    to the items behind it. *)
Definition extends_batch (w : World) (it : queueItem) : Prop :=
  dagComplete (info_of w it) = 0
  ∧ deviceComplete (info_of w it) = 0
  ∧ currentOpReady (info_of w it) ≠ 0
  ∧ currentOpBatchable (info_of w it) ≠ 0
  ∧ inbatchsize (batch_info_of w it) ≠ 0
  ∧ inbatchsize (batch_info_of w it) < batchsize (batch_info_of w it).

(** The tentative batch of the candidate head [it] followed by [rest]. *)
Definition tentative (w : World) (it : queueItem) (rest : list queueItem)
    : list queueItem * Z :=
  scan_next_items devicestr w (value it) (currentOp (info_of w it))
    (batchsize (batch_info_of w it)) rest [it]
    (inbatchsize (batch_info_of w it)).

(** The ways the scan ends on a candidate head [it] followed by
    [rest]. *)
Inductive selected (w : World) (it : queueItem) (rest : list queueItem)
    : flags → list queueItem → Prop :=
| sel_unblock run :
    dagComplete (info_of w it) ≠ 0 →
    selected w it rest
      {| do_unblock := true; do_run := run; do_retry := false;
         device_complete := false |} [it]
| sel_device_complete :
    dagComplete (info_of w it) = 0 →
    deviceComplete (info_of w it) ≠ 0 →
    selected w it rest
      {| do_unblock := false; do_run := false; do_retry := false;
         device_complete := true |} [it]
| sel_retry :
    dagComplete (info_of w it) = 0 →
    deviceComplete (info_of w it) = 0 →
    currentOpReady (info_of w it) = 0 →
    selected w it rest
      {| do_unblock := false; do_run := false; do_retry := true;
         device_complete := false |} [it]
| sel_run_alone :
    dagComplete (info_of w it) = 0 →
    deviceComplete (info_of w it) = 0 →
    currentOpReady (info_of w it) ≠ 0 →
    currentOpBatchable (info_of w it) = 0
    ∨ inbatchsize (batch_info_of w it) = 0
    ∨ batchsize (batch_info_of w it) ≤ inbatchsize (batch_info_of w it) →
    selected w it rest
      {| do_unblock := false; do_run := true; do_retry := false;
         device_complete := false |} [it]
| sel_run_batch evicted_items current_batchsize :
    extends_batch w it →
    tentative w it rest = (evicted_items, current_batchsize) →
    minbatchsize (batch_info_of w it) = 0
    ∨ minbatchsize (batch_info_of w it) ≤ current_batchsize →
    selected w it rest
      {| do_unblock := false; do_run := true; do_retry := false;
         device_complete := false |} evicted_items.

(** The state a run leaves behind: the shared state after the execution
    call and the other threads, and the queue found when the queue lock
    is taken again. *)
Definition after_run (q : queue) (w : World) (ev : list queueItem)
    : queue * World :=
  peers (foldl queueEvict q ev) (run_step devicestr w (value <$> ev)).1.

Definition is_unblock_of (r : RunInfo) (e : event) : bool :=
  match e with
  | EvUnblock _ r' => Nat.eqb r r'
  | _ => false
  end.

(** How many times the trace calls [RedisModule_UnblockClient] for the
    run info [r]. *)
Fixpoint unblock_count (r : RunInfo) (tr : list event) : nat :=
  match tr with
  | [] => 0%nat
  | e :: tr' =>
      ((if is_unblock_of r e then 1 else 0) + unblock_count r tr')%nat
  end.


End Vocabulary.

(** ** Concrete queues and registries *)

Module Scenarios.
Import TestEnv.

(** Model 1 with a target batch size of 4 and a minimum of [minb]; an
    input of size [n] along the 0-th dimension. *)
Definition M (minb n : Z) : TOp := model_op 1 4 minb n.

(** Two model runs queued for the same model, minimum batch size 2: the
    first DAG has two of them in sequence, the second DAG one. *)
Definition twice_world0 : gmap nat TDag :=
  world_of [dag 10 [M 2 1; M 2 1]; dag 11 [M 2 1]].
Definition twice_queue0 : queue := enqueue_all 2.

(** The same queue after the first pass of the worker, which ran both
    DAGs as one batch and pushed them back. *)
Definition twice_queue : queue :=
  (RedisAI_Run_ThreadMain_drain "CPU" 1 twice_queue0 twice_world0).1.1.1.
Definition twice_world : gmap nat TDag :=
  (RedisAI_Run_ThreadMain_drain "CPU" 1 twice_queue0 twice_world0).1.1.2.

(** A DAG that is done on this device while another device still works
    on it; one reference is left and the client is waiting. *)
Definition device_done_world : gmap nat TDag :=
  world_of [ {| ops := []; elsewhere := true; err := 0; refs := 1;
                cli := Some 7%nat |} ].
Definition device_done_queue : queue := enqueue_all 1.

(** A batch of two in which the operation of the first DAG fails. *)
Definition first_fails_world : gmap nat TDag :=
  world_of [dag 10 [failing (M 1 1); M 1 1]; dag 11 [M 1 1; M 1 1]].
Definition first_fails_queue : queue := enqueue_all 2.

(** Three DAGs with one model run each, minimum batch size 1. *)
Definition three_world : gmap nat TDag :=
  world_of [dag 10 [M 1 1]; dag 11 [M 1 1]; dag 12 [M 1 1]].
Definition three_queue : queue := enqueue_all 3.

(** Inputs of sizes 1, 2 and 2 for a model whose target and minimum batch
    sizes are both 4. *)
Definition grow_world : gmap nat TDag :=
  world_of [dag 10 [M 4 1]; dag 11 [M 4 2]; dag 12 [M 4 2]].
Definition grow_queue : queue := enqueue_all 3.

(** Inputs of sizes 1 and 2, a ready script operation, then inputs of
    sizes 2 and 1, for a target batch size of 4 and a minimum of 1. *)
Definition stop_world : gmap nat TDag :=
  world_of [dag 10 [M 1 1]; dag 11 [M 1 2]; dag 12 [script_op true];
            dag 13 [M 1 2]; dag 14 [M 1 1]].
Definition stop_queue : queue := enqueue_all 5.

(** A DAG whose current operation waits for an input, in front of two
    others. *)
Definition waiting_world : gmap nat TDag :=
  world_of [dag 10 [script_op false]; dag 11 [M 1 1]; dag 12 [M 1 1]].
Definition waiting_queue : queue := enqueue_all 3.

(** Two DAGs with two model runs each. *)
Definition progress_world : gmap nat TDag :=
  world_of [dag 10 [M 1 1; M 1 1]; dag 11 [M 1 1; M 1 1]].
Definition progress_queue : queue := enqueue_all 2.


Definition item (a : nat) (r : RunInfo) : queueItem :=
  {| addr := a; value := r |}.

(** Thread creation that always succeeds, and that always fails with
    [EAGAIN]. *)
Definition create_ok (_ : nat) : Z := 0.
Definition create_eagain (_ : nat) : Z := 11.

End Scenarios.

(** ** Further vocabulary *)

Definition is_run_event (e : event) : bool :=
  match e with
  | EvRun _ _ | EvBatchedRun _ _ => true
  | _ => false
  end.

(** How many execution calls (single or batched) the trace holds. *)
Fixpoint run_count (tr : list event) : nat :=
  match tr with
  | [] => 0%nat
  | e :: tr' => ((if is_run_event e then 1 else 0) + run_count tr')%nat
  end.

(** A lower-case letter of the C locale. *)
Definition islower (c : ascii) : Prop :=
  (97 ≤ nat_of_ascii c ≤ 122)%nat.

(** Every key of the dictionary is its own upper-cased form. *)
Definition normalized (d : gmap string nat) : Prop :=
  ∀ key, is_Some (d !! key) → strToUpper key = key.

(** The state a call of [ensureRunQueue] ends in, returned or blocked. *)
Definition outcome_state (o : Registry.outcome) : Registry.state :=
  match o with
  | Registry.Returned _ _ s => s
  | Registry.Blocked s => s
  end.

Module MoreScenarios.
Import TestEnv Scenarios.

(** A complete DAG with no reference left and its client waiting. *)
Definition done_world : gmap nat TDag :=
  world_of [ {| ops := []; elsewhere := false; err := 0; refs := 0;
                cli := Some 7%nat |} ].
Definition done_queue : queue := enqueue_all 1.

(** A ready script operation in front of a model run. *)
Definition script_world : gmap nat TDag :=
  world_of [dag 10 [script_op true; M 1 1]; dag 11 [M 1 1]].
Definition script_queue : queue := enqueue_all 2.

(** A batch of two in which the operation of the last DAG fails. *)
Definition last_fails_world : gmap nat TDag :=
  world_of [dag 10 [M 1 1; M 1 1]; dag 11 [failing (M 1 1)]].
Definition last_fails_queue : queue := enqueue_all 2.

(** A DAG whose error field holds 2. *)
Definition odd_error_world : gmap nat TDag :=
  world_of [ {| ops := [script_op true; script_op true]; elsewhere := false;
                err := 2; refs := 1; cli := Some 7%nat |} ].
Definition odd_error_queue : queue := enqueue_all 1.

(** Two runs of size 1 of a model whose minimum batch size is 4. *)
Definition starved_world : gmap nat TDag :=
  world_of [dag 10 [M 4 1]; dag 11 [M 4 1]].
Definition starved_queue : queue := enqueue_all 2.

(** A run below the minimum batch size in front of a DAG that waits for
    an input. *)
Definition spin_world : gmap nat TDag :=
  world_of [dag 10 [M 4 1]; dag 11 [script_op false]].
Definition spin_queue : queue := enqueue_all 2.

(** A registry that holds a record for ["CPU"] at address 1, with two
    workers. *)
Definition cpu_registry : Registry.state :=
  outcome_state
    (Registry.ensureRunQueue 2 create_ok Registry.join_live "cpu"
       Registry.init).

(** The flags of a plain run. *)
Definition fl_run : flags :=
  {| do_unblock := false; do_run := true; do_retry := false;
     device_complete := false |}.

(** Thread creation that succeeds once and then fails with [EAGAIN]. *)
Definition create_once (k : nat) : Z := if Nat.eqb k 0 then 0 else 11.

End MoreScenarios.

(** * Properties *)

(** ** The queue and the small loops *)

Lemma unlink_head it rest : unlink (addr it) (it :: rest) = rest.
Proof. simpl. by rewrite Nat.eqb_refl. Qed.

Section WorkerFacts.
Context {E : DagInterface}.
Variable devicestr : string.

Lemma values_requeue_evicted q ev :
  values (requeue_evicted q ev) = (value <$> ev) ++ values q.
Proof.
  unfold values, requeue_evicted.
  induction ev as [|it ev IH]; simpl; [done|]. by f_equal.
Qed.

Lemma error_loop_last w batch r e :
  (error_loop w (batch ++ [r]) e).1 = dagError w r.
Proof.
  revert e. induction batch as [|x batch IH]; intros e; simpl.
  - by destruct (client w r).
  - specialize (IH (dagError w x)).
    destruct (error_loop w (batch ++ [r]) (dagError w x)). done.
Qed.

Lemma error_loop_events w batch e ev :
  ev ∈ (error_loop w batch e).2 →
  ∃ c r, ev = EvUnblock c r ∧ r ∈ batch ∧ dagError w r ≠ 0
         ∧ dagRefCount w r = 0 ∧ client w r = Some c.
Proof.
  revert e. induction batch as [|x batch IH]; intros e; simpl.
  - by intros ?%elem_of_nil.
  - specialize (IH (dagError w x)).
    destruct (error_loop w batch (dagError w x)) as [re tr]. simpl in *.
    intros [Hin|Hin]%elem_of_app.
    + destruct (client w x) as [c|] eqn:Hc; [|by apply elem_of_nil in Hin].
      destruct (Z.eqb_spec (dagError w x) 0) as [|Hne]; simpl in Hin;
        [by apply elem_of_nil in Hin|].
      destruct (Z.eqb_spec (dagRefCount w x) 0) as [Hz|]; simpl in Hin;
        [|by apply elem_of_nil in Hin].
      apply list_elem_of_singleton in Hin as ->.
      exists c, x. repeat split; try done. apply list_elem_of_here.
    + destruct (IH Hin) as (c & r & -> & Hr & ?).
      exists c, r. split; [done|]. split; [|done].
      by apply list_elem_of_further.
Qed.

(** The inner loop only appends, in queue order. *)
Lemma scan_next_items_appends w r op bs l acc cur ev cur' :
  scan_next_items devicestr w r op bs l acc cur = (ev, cur') →
  ∃ added, ev = acc ++ added ∧ added `sublist_of` l.
Proof.
  revert acc cur. induction l as [|x l IH]; intros acc cur; simpl.
  - intros [= <- <-]. exists []. by rewrite app_nil_r.
  - destruct (_ || _).
    { intros (added & -> & Hs)%IH. exists added. split; [done|].
      by apply sublist_cons. }
    destruct (RedisAI_DagOpBatchingMatch _ _ _ _ _) as [batched nb].
    destruct (batched =? 0).
    { intros (added & -> & Hs)%IH. exists added. split; [done|].
      by apply sublist_cons. }
    destruct (_ >? _).
    { intros [= <- <-]. exists []. rewrite app_nil_r. split; [done|].
      apply sublist_nil_l. }
    intros (added & -> & Hs)%IH. exists (x :: added).
    rewrite <- app_assoc. split; [done|]. by apply sublist_skip.
Qed.

(** Every exit of the scan with an item is one of the five selections,
    at some candidate head of the list. *)
Lemma scan_items_selected w l fl0 fl ev :
  do_retry fl0 = false → device_complete fl0 = false →
  scan_items devicestr w fl0 l = Some (fl, ev) →
  ∃ pre it rest, l = pre ++ it :: rest
                 ∧ selected devicestr w it rest fl ev.
Proof.
  revert fl0. induction l as [|x l IH]; intros fl0 Hr Hd; simpl; [done|].
  fold (info_of devicestr w x). fold (batch_info_of devicestr w x).
  destruct (Z.eqb_spec (dagComplete (info_of devicestr w x)) 0)
    as [Hdag|Hdag]; simpl.
  2:{ intros [= <- <-]. exists [], x, l. split; [done|].
      rewrite Hr, Hd. by constructor. }
  destruct (Z.eqb_spec (deviceComplete (info_of devicestr w x)) 0)
    as [Hdev|Hdev]; simpl.
  2:{ intros [= <- <-]. exists [], x, l. split; [done|].
      by constructor. }
  destruct (Z.eqb_spec (currentOpReady (info_of devicestr w x)) 0)
    as [Hrdy|Hrdy].
  { intros [= <- <-]. exists [], x, l. split; [done|].
    rewrite Hd. by constructor. }
  destruct (Z.eqb_spec (currentOpBatchable (info_of devicestr w x)) 0)
    as [Hb|Hb].
  { intros [= <- <-]. exists [], x, l. split; [done|].
    rewrite Hr, Hd. constructor; auto. }
  destruct (Z.eqb_spec (inbatchsize (batch_info_of devicestr w x)) 0)
    as [Hin|Hin]; simpl.
  { intros [= <- <-]. exists [], x, l. split; [done|].
    rewrite Hr, Hd. constructor; auto. }
  rewrite Z.geb_leb.
  destruct (Z.leb_spec (batchsize (batch_info_of devicestr w x))
              (inbatchsize (batch_info_of devicestr w x))) as [Hle|Hlt].
  { intros [= <- <-]. exists [], x, l. split; [done|].
    rewrite Hr, Hd. constructor; auto. }
  destruct (scan_next_items _ _ _ _ _ _ _ _) as [ev' cur'] eqn:Hext.
  destruct (Z.eqb_spec (minbatchsize (batch_info_of devicestr w x)) 0)
    as [Hmin|Hmin]; simpl.
  { intros [= <- <-]. exists [], x, l. split; [done|].
    rewrite Hr, Hd. eapply sel_run_batch; eauto. by repeat split. }
  rewrite Z.geb_leb.
  destruct (Z.leb_spec (minbatchsize (batch_info_of devicestr w x)) cur')
    as [Hle|Hlt'].
  { intros [= <- <-]. exists [], x, l. split; [done|].
    rewrite Hr, Hd. eapply sel_run_batch; eauto. by repeat split. }
  intros (pre & it & rest & -> & Hsel)%IH; [|done..].
  by exists (x :: pre), it, rest.
Qed.

Lemma selected_shape w it rest fl ev :
  selected devicestr w it rest fl ev →
  ∃ others, ev = it :: others ∧ others `sublist_of` rest.
Proof.
  destruct 1 as [run ?| | | |ev cur Hx Ht Hmin];
    try (exists []; split; [done|apply sublist_nil_l]).
  apply scan_next_items_appends in Ht as (added & -> & Hs).
  by exists added.
Qed.

Lemma scan_items_sublist w l fl ev :
  scan_items devicestr w flags0 l = Some (fl, ev) →
  ev `sublist_of` l ∧ ∃ it others, ev = it :: others.
Proof.
  intros (pre & it & rest & -> & Hsel)%scan_items_selected; [|done..].
  apply selected_shape in Hsel as (others & -> & Hs).
  split; [|by eauto].
  apply sublist_inserts_l. by apply sublist_skip.
Qed.

(** A selection that runs does not retry, and the other way round. *)
Lemma selected_run_no_retry w it rest fl ev :
  selected devicestr w it rest fl ev →
  do_run fl = true → do_retry fl = false.
Proof. by destruct 1. Qed.

Lemma selected_retry w it rest fl ev :
  selected devicestr w it rest fl ev →
  do_retry fl = true →
  fl = {| do_unblock := false; do_run := false; do_retry := true;
          device_complete := false |}
  ∧ ev = [it] ∧ currentOpReady (info_of devicestr w it) = 0.
Proof. by destruct 1. Qed.

(** What the loop body does with a selection that runs. *)
Lemma process_evicted_run q w fl ev :
  do_run fl = true → do_retry fl = false →
  let q2 := (after_run devicestr q w ev).1 in
  let w2 := (after_run devicestr q w ev).2 in
  let run_error := (error_loop w2 (value <$> ev) 0).1 in
  process_evicted devicestr q w fl ev =
    (if run_error =? 0 then requeue_evicted q2 ev else q2, w2,
     ((run_step devicestr w (value <$> ev)).2
      ++ (error_loop w2 (value <$> ev) 0).2)
     ++ match do_unblock fl, ev with
        | true, it :: _ => unblock_path w2 (value it)
        | _, _ => []
        end
     ++ []
     ++ (if device_complete fl || do_unblock fl || (run_error =? 1)
         then EvFree <$> (addr <$> ev) else [])).
Proof.
  intros Hrun Hretry. unfold process_evicted, after_run.
  rewrite Hrun, Hretry.
  destruct (run_step devicestr w (value <$> ev)) as [w1 tr1]. simpl.
  destruct (peers (foldl queueEvict q ev) w1) as [q2 w2]. simpl.
  destruct (error_loop w2 (value <$> ev) 0) as [re tre]. simpl.
  by destruct (do_unblock fl), ev.
Qed.

(** C2 (amended).  When the scan finds the head item's DAG complete on
    this device but not complete as a whole, the loop body evicts the
    item and frees its node, and that is all: nothing is run, nothing is
    put back on the queue, the shared DAG state (reference count
    included) is handed back as it was found, and no client is
    unblocked. *)
Theorem device_complete_frees_item_only q w it rest :
  items q = it :: rest →
  dagComplete (info_of devicestr w it) = 0 →
  deviceComplete (info_of devicestr w it) ≠ 0 →
  RedisAI_Run_ThreadMain_step devicestr q w =
    Some ({| items := rest; next_addr := next_addr q |}, w,
          [EvFree (addr it)]).
Proof.
  intros Hq Hdag Hdev. unfold RedisAI_Run_ThreadMain_step.
  rewrite Hq. simpl. fold (info_of devicestr w it). rewrite Hdag. simpl.
  destruct (Z.eqb_spec (deviceComplete (info_of devicestr w it)) 0);
    [done|]. simpl.
  unfold process_evicted, queueEvict. simpl.
  by rewrite Hq, unlink_head.
Qed.


(** C6.  When the scan ends on an item whose current op is not ready,
    the loop body evicts that item alone and runs nothing.  If the queue
    still holds another item, the front item is popped, the DAG is
    pushed at the front and the popped item in front of it: the DAG is
    second and all the other items keep their order (so a DAG that was
    the head has moved back by exactly one slot).  If the queue is
    otherwise empty, the DAG is pushed back and the worker sleeps for
    1000 microseconds. *)
Theorem retry_requeue_second_position q w fl ev :
  scan_items devicestr w flags0 (items q) = Some (fl, ev) →
  do_retry fl = true →
  ∃ it q', ev = [it] ∧ it ∈ items q
    ∧ currentOpReady (info_of devicestr w it) = 0
    ∧ (∀ rest, items q = it :: rest →
               values (queueEvict q it) = value <$> rest)
    ∧ match values (queueEvict q it) with
      | [] =>
          RedisAI_Run_ThreadMain_step devicestr q w =
            Some (q', w, [EvSleep 1000])
          ∧ values q' = [value it]
      | next_rinfo :: others =>
          RedisAI_Run_ThreadMain_step devicestr q w = Some (q', w, [])
          ∧ values q' = next_rinfo :: value it :: others
      end.
Proof.
  intros Hscan Hretry.
  destruct (scan_items_selected w (items q) flags0 fl ev
              eq_refl eq_refl Hscan)
    as (pre & it & rest & Hl & Hsel).
  destruct (selected_retry _ _ _ _ _ Hsel Hretry) as (-> & -> & Hrdy).
  unfold RedisAI_Run_ThreadMain_step. rewrite Hscan.
  assert (it ∈ items q) as Hin.
  { rewrite Hl. apply elem_of_app. right. apply list_elem_of_here. }
  assert (∀ rest, items q = it :: rest →
                  values (queueEvict q it) = value <$> rest) as Hhead.
  { intros rest' Hq. unfold values, queueEvict. simpl.
    by rewrite Hq, unlink_head. }
  exists it. unfold process_evicted.
  cbn [do_run do_unblock do_retry device_complete foldl andb orb].
  revert Hhead. generalize (queueEvict q it). intros [[|x r] n] Hhead.
  - eexists. by repeat split.
  - eexists. by repeat split.
Qed.

(** C7.  When the selection runs and the error recorded after the
    execution call is zero (the error of the DAG of the last evicted
    item, which is the one the loop over the batch keeps), every evicted
    item is pushed back at the front, the last one first: the queue then
    starts with the evicted run infos in the order they had in the queue,
    the first evicted one at the head, followed by whatever the queue held
    when the lock was taken again. *)
Theorem successful_run_requeue_preserves_head q w fl ev r_last :
  scan_items devicestr w flags0 (items q) = Some (fl, ev) →
  do_run fl = true →
  last (value <$> ev) = Some r_last →
  dagError (after_run devicestr q w ev).2 r_last = 0 →
  ev `sublist_of` items q
  ∧ ∃ q' tr first,
      RedisAI_Run_ThreadMain_step devicestr q w =
        Some (q', (after_run devicestr q w ev).2, tr)
      ∧ values q' = (value <$> ev) ++ values (after_run devicestr q w ev).1
      ∧ head (value <$> ev) = Some first
      ∧ head (values q') = Some first.
Proof.
  intros Hscan Hrun Hlast Hclean.
  assert ((error_loop (after_run devicestr q w ev).2 (value <$> ev) 0).1 = 0)
    as Herr.
  { apply last_Some in Hlast as [l' ->]. by rewrite error_loop_last. }
  destruct (scan_items_selected w (items q) flags0 fl ev
              eq_refl eq_refl Hscan)
    as (pre & it' & rest & Hl & Hsel).
  pose proof (selected_run_no_retry _ _ _ _ _ Hsel Hrun) as Hretry.
  destruct (scan_items_sublist _ _ _ _ Hscan) as (Hsub & it & others & ->).
  split; [done|].
  unfold RedisAI_Run_ThreadMain_step. rewrite Hscan.
  rewrite process_evicted_run by done. cbv zeta. rewrite Herr.
  change (0 =? 0) with true. cbv iota.
  eexists _, _, (value it). split; [reflexivity|].
  by rewrite values_requeue_evicted.
Qed.

(** C3 (the defect).  The error recorded after a run is the one of the
    last member of the batch only.  When the DAG of the last member has
    no error, a member [r] whose DAG does have its error set is pushed
    back on the queue with the others, and no queue item is freed. *)
Theorem errored_member_before_last_is_requeued q w fl ev r r_last :
  scan_items devicestr w flags0 (items q) = Some (fl, ev) →
  do_run fl = true →
  do_unblock fl = false →
  r ∈ value <$> ev →
  dagError (after_run devicestr q w ev).2 r ≠ 0 →
  last (value <$> ev) = Some r_last →
  dagError (after_run devicestr q w ev).2 r_last = 0 →
  ∃ q' tr,
    RedisAI_Run_ThreadMain_step devicestr q w =
      Some (q', (after_run devicestr q w ev).2, tr)
    ∧ r ∈ values q'
    ∧ ∀ item, EvFree item ∉ tr.
Proof.
  intros Hscan Hrun Hunb Hr Hdag Hlast Hclean.
  assert ((error_loop (after_run devicestr q w ev).2 (value <$> ev) 0).1 = 0)
    as Herr.
  { apply last_Some in Hlast as [l' ->]. by rewrite error_loop_last. }
  destruct (scan_items_selected w (items q) flags0 fl ev
              eq_refl eq_refl Hscan)
    as (pre & it' & rest & Hl & Hsel).
  pose proof (selected_run_no_retry _ _ _ _ _ Hsel Hrun) as Hretry.
  assert (device_complete fl = false) as Hdc by by destruct Hsel.
  unfold RedisAI_Run_ThreadMain_step. rewrite Hscan.
  rewrite process_evicted_run by done. cbv zeta.
  rewrite Herr, Hunb, Hdc.
  change (0 =? 0) with true. change (0 =? 1) with false. cbn [orb].
  cbv iota.
  eexists _, _. split; [reflexivity|]. split.
  - rewrite values_requeue_evicted. apply elem_of_app. by left.
  - intros item Hin. rewrite !app_nil_r in Hin.
    apply elem_of_app in Hin as [Hin|Hin].
    + unfold run_step in Hin. destruct (_ <? _)%nat; simpl in Hin.
      * by apply list_elem_of_singleton in Hin.
      * destruct (value <$> ev); simpl in Hin;
          [by apply elem_of_nil in Hin|].
        by apply list_elem_of_singleton in Hin.
    + by apply error_loop_events in Hin as (c & r' & ? & _).
Qed.

(** The inner loop accepts every item that passes its three tests, in
    order, up to the first such item that would take the running size
    past the target; there it stops, and nothing behind is looked at. *)
Lemma scan_next_items_stop w h bs l acc cur ev cur' :
  scan_next_items devicestr w (value h) (currentOp (info_of devicestr w h))
    bs l acc cur = (ev, cur') →
  ∃ scanned stopped,
    l = scanned ++ stopped
    ∧ ev = acc ++ List.filter (joins devicestr w h) scanned
    ∧ cur' = foldl (λ c it, size_add c (match_of devicestr w h it).2) cur
               (List.filter (joins devicestr w h) scanned)
    ∧ (∀ joined later,
         List.filter (joins devicestr w h) scanned = joined ++ later →
         joined ≠ [] →
         foldl (λ c it, size_add c (match_of devicestr w h it).2) cur joined
           ≤ bs)
    ∧ (stopped = []
       ∨ ∃ x tail, stopped = x :: tail ∧ joins devicestr w h x = true
                   ∧ bs < size_add cur' (match_of devicestr w h x).2).
Proof.
  revert acc cur. induction l as [|x l IH]; intros acc cur; simpl.
  - intros [= <- <-]. exists [], []. simpl. rewrite app_nil_r.
    repeat split; [|by left]. by intros [|??] ? ?.
  - fold (info_of devicestr w x).
    destruct (Z.eqb_spec (currentOpReady (info_of devicestr w x)) 0)
      as [Hr|Hr]; simpl.
    { intros (scanned & stopped & -> & -> & -> & Hpre & Hstop)%IH.
      exists (x :: scanned), stopped. simpl.
      assert (joins devicestr w h x = false) as ->; [|done].
      unfold joins. by rewrite Hr. }
    destruct (Z.eqb_spec (currentOpBatchable (info_of devicestr w x)) 0)
      as [Hb|Hb]; simpl.
    { intros (scanned & stopped & -> & -> & -> & Hpre & Hstop)%IH.
      exists (x :: scanned), stopped. simpl.
      assert (joins devicestr w h x = false) as ->; [|done].
      unfold joins. rewrite Hb. by rewrite andb_false_r. }
    fold (match_of devicestr w h x).
    destruct (match_of devicestr w h x) as [batched nb] eqn:Hm.
    destruct (Z.eqb_spec batched 0) as [Hbat|Hbat].
    { intros (scanned & stopped & -> & -> & -> & Hpre & Hstop)%IH.
      exists (x :: scanned), stopped. simpl.
      assert (joins devicestr w h x = false) as ->; [|done].
      unfold joins. rewrite Hm. simpl. rewrite Hbat.
      by rewrite andb_false_r. }
    assert (joins devicestr w h x = true) as Hj.
    { unfold joins. rewrite Hm. simpl.
      by destruct (Z.eqb_spec (currentOpReady (info_of devicestr w x)) 0),
           (Z.eqb_spec (currentOpBatchable (info_of devicestr w x)) 0),
           (Z.eqb_spec batched 0). }
    rewrite Z.gtb_ltb.
    destruct (Z.ltb_spec bs (size_add cur nb)) as [Hgt|Hle].
    + intros [= <- <-]. exists [], (x :: l). simpl. rewrite app_nil_r.
      repeat split; [by intros [|??] ? ?|].
      right. exists x, l. rewrite Hm. by simpl.
    + intros (scanned & stopped & -> & -> & -> & Hpre & Hstop)%IH.
      exists (x :: scanned), stopped. simpl. rewrite Hj. simpl.
      rewrite Hm. simpl.
      rewrite <- app_assoc. repeat split; [|done].
      intros [|y joined] later Heq Hne; [done|].
      injection Heq as <- Heq. simpl. rewrite Hm. simpl.
      destruct joined as [|z joined]; [done|].
      by apply (Hpre (z :: joined) later).
Qed.

(** With the target and the sizes in range, and every running size
    within the target, no [size_t] addition wraps: the running size is
    the mathematical sum. *)
Lemma running_size_total w h bs joined cur :
  bs < 2 ^ 63 → 0 ≤ cur →
  Forall (λ it, 0 ≤ (match_of devicestr w h it).2 < 2 ^ 63) joined →
  (∀ a b, joined = a ++ b →
     foldl (λ c it, size_add c (match_of devicestr w h it).2) cur a ≤ bs) →
  foldl (λ c it, size_add c (match_of devicestr w h it).2) cur joined
  = cur + foldr (λ it a, (match_of devicestr w h it).2 + a) 0 joined.
Proof.
  intros Hbs. revert cur.
  induction joined as [|x joined IH]; intros cur Hcur Hrange Hpre; simpl;
    [lia|].
  apply Forall_cons in Hrange as [Hx Hrange].
  pose proof (Hpre [] (x :: joined) eq_refl) as H0. simpl in H0.
  assert (size_add cur (match_of devicestr w h x).2
          = cur + (match_of devicestr w h x).2) as Hadd.
  { unfold size_add. apply Z.mod_small. lia. }
  rewrite Hadd, IH; [lia|lia|done|].
  intros a b ->. specialize (Hpre (x :: a) b eq_refl). simpl in Hpre.
  by rewrite Hadd in Hpre.
Qed.

Lemma run_step_events w batch e :
  e ∈ (run_step devicestr w batch).2 →
  (e = EvBatchedRun batch devicestr ∧ (1 < length batch)%nat)
  ∨ ∃ r, e = EvRun r devicestr.
Proof.
  unfold run_step. destruct (Nat.ltb_spec 1 (length batch)); simpl.
  - intros ->%list_elem_of_singleton. by left.
  - destruct batch; simpl; [by intros ?%elem_of_nil|].
    intros ->%list_elem_of_singleton. right. by eexists.
Qed.

(** A batched execution call in the trace of the loop body is the run
    of a selection of more than one item. *)
Lemma process_evicted_batched_run q w fl ev rs d :
  EvBatchedRun rs d ∈ (process_evicted devicestr q w fl ev).2 →
  do_run fl = true ∧ (1 < length ev)%nat
  ∧ rs = value <$> ev ∧ d = devicestr.
Proof.
  unfold process_evicted.
  destruct (do_run fl) eqn:Hrun.
  - destruct (run_step devicestr w (value <$> ev)) as [w1 tr1] eqn:Hstep.
    destruct (peers _ w1) as [q2 w2].
    destruct (error_loop w2 (value <$> ev) 0) as [re tre] eqn:Herr.
    destruct (match do_retry fl, ev with
              | true, it :: _ => retry_requeue q2 (value it)
              | _, _ => (q2, [])
              end) as [q3 tr3] eqn:Hretry.
    cbn [snd]. rewrite !elem_of_app.
    intros [[Hin|Hin]|[Hin|[Hin|Hin]]].
    + pose proof (run_step_events w (value <$> ev) (EvBatchedRun rs d))
        as Hev. rewrite Hstep in Hev.
      destruct (Hev Hin) as [[[= -> ->] Hlen]|[r [=]]].
      rewrite length_fmap in Hlen. done.
    + pose proof (error_loop_events w2 (value <$> ev) 0
                    (EvBatchedRun rs d)) as Hev.
      rewrite Herr in Hev. by destruct (Hev Hin) as (c & r & [=] & _).
    + destruct (do_unblock fl), ev; try by apply elem_of_nil in Hin.
      unfold unblock_path in Hin.
      destruct (client _ _); [|by apply elem_of_nil in Hin].
      destruct (_ =? 0); [|by apply elem_of_nil in Hin].
      by apply list_elem_of_singleton in Hin.
    + destruct (do_retry fl), ev; try (injection Hretry as <- <-);
        try by apply elem_of_nil in Hin.
      unfold retry_requeue in Hretry.
      destruct (_ >? 0).
      * destruct (queuePop q2) as [[x|] q']; injection Hretry as <- <-;
          by apply elem_of_nil in Hin.
      * injection Hretry as <- <-.
        by apply list_elem_of_singleton in Hin.
    + destruct (_ || _); [|by apply elem_of_nil in Hin].
      apply list_elem_of_fmap in Hin as (a & [=] & _).
  - destruct (match do_retry fl, ev with
              | true, it :: _ => retry_requeue (foldl queueEvict q ev)
                                   (value it)
              | _, _ => (foldl queueEvict q ev, [])
              end) as [q3 tr3] eqn:Hretry.
    cbn [snd app]. rewrite !elem_of_app.
    intros [Hin|[Hin|Hin]].
    + destruct (do_unblock fl), ev; try by apply elem_of_nil in Hin.
      unfold unblock_path in Hin.
      destruct (client _ _); [|by apply elem_of_nil in Hin].
      destruct (_ =? 0); [|by apply elem_of_nil in Hin].
      by apply list_elem_of_singleton in Hin.
    + destruct (do_retry fl), ev; try (injection Hretry as <- <-);
        try by apply elem_of_nil in Hin.
      unfold retry_requeue in Hretry.
      destruct (_ >? 0).
      * destruct (queuePop _) as [[x|] q']; injection Hretry as <- <-;
          by apply elem_of_nil in Hin.
      * injection Hretry as <- <-.
        by apply list_elem_of_singleton in Hin.
    + destruct (_ || _); [|by apply elem_of_nil in Hin].
      apply list_elem_of_fmap in Hin as (a & [=] & _).
Qed.

(** C4.  The loop body processes one selection: a head item and the
    items that joined it.  Every batched execution call in its trace is
    made for exactly that selection, with at least one item joined.
    Whenever items joined, or the head went through the batch extension
    at all:
    - acceptance: the running size, as the code adds it up, is at most
      the target batch size after every item that joined;
    - stop: the items behind the head split into a scanned part and the
      rest; the items that joined are exactly the items of the scanned
      part that are ready, batchable and match the head, in queue order;
      the rest is empty, or starts with such an item whose size added to
      the running size exceeds the target, and neither it nor any item
      behind it joins, even one that would fit;
    - minimum: the final running size is at least the minimum batch size
      unless that is zero;
    - with the target and the sizes of the participating ops in the range
      of a tensor dimension, the running size is the mathematical sum of
      the participating ops' sizes along the 0-th dimension, which is
      then at most the target and at least the minimum unless that is
      zero. *)
Theorem batched_run_within_bounds q w q' w' tr :
  RedisAI_Run_ThreadMain_step devicestr q w = Some (q', w', tr) →
  ∃ fl h others pre rest,
    scan_items devicestr w flags0 (items q) = Some (fl, h :: others)
    ∧ items q = pre ++ h :: rest
    ∧ (∀ rs d, EvBatchedRun rs d ∈ tr →
         rs = value <$> (h :: others) ∧ d = devicestr ∧ others ≠ [])
    ∧ (others ≠ [] ∨ extends_batch devicestr w h →
       (∀ joined later, others = joined ++ later →
          running_size devicestr w h joined
            ≤ batchsize (batch_info_of devicestr w h))
       ∧ (∃ scanned stopped,
            rest = scanned ++ stopped
            ∧ others = List.filter (joins devicestr w h) scanned
            ∧ (stopped = []
               ∨ ∃ x tail,
                   stopped = x :: tail
                   ∧ joins devicestr w h x = true
                   ∧ batchsize (batch_info_of devicestr w h)
                     < size_add (running_size devicestr w h others)
                         (match_of devicestr w h x).2))
       ∧ (minbatchsize (batch_info_of devicestr w h) = 0
          ∨ minbatchsize (batch_info_of devicestr w h)
            ≤ running_size devicestr w h others)
       ∧ (dims_in_range devicestr w h others →
          batch_total devicestr w (h :: others)
            = running_size devicestr w h others
          ∧ batch_total devicestr w (h :: others)
            ≤ batchsize (batch_info_of devicestr w h)
          ∧ (minbatchsize (batch_info_of devicestr w h) = 0
             ∨ minbatchsize (batch_info_of devicestr w h)
               ≤ batch_total devicestr w (h :: others)))).
Proof.
  unfold RedisAI_Run_ThreadMain_step.
  destruct (scan_items devicestr w flags0 (items q)) as [[fl ev]|]
    eqn:Hscan; [|done].
  intros [= Hp].
  assert (tr = (process_evicted devicestr q w fl ev).2) as ->
    by by rewrite Hp.
  destruct (scan_items_selected w (items q) flags0 fl ev
              eq_refl eq_refl Hscan)
    as (pre & h & rest & Hl & Hsel).
  destruct Hsel as [run Hd| Hd Hv| Hd Hv Hr| Hd Hv Hr Halone
                   |ev cur Hx Ht Hmin].
  1-4: eexists _, h, [], pre, rest; split; [reflexivity|];
    split; [done|]; split;
    [intros rs d (_ & Hlen & _)%process_evicted_batched_run;
     simpl in Hlen; lia|];
    intros [?|(? & ? & ? & ? & ? & ?)]; [done|]; try done.
  { destruct Halone as [?|[?|?]]; [done|done|lia]. }
  pose proof Hx as (_ & _ & _ & _ & Hne & Hlt).
  apply scan_next_items_stop in Ht
    as (scanned & stopped & Hrest & -> & Hcur & Hpre & Hstop).
  change ([h] ++ List.filter (joins devicestr w h) scanned)
    with (h :: List.filter (joins devicestr w h) scanned) in *.
  set (others := List.filter (joins devicestr w h) scanned) in *.
  fold (running_size devicestr w h others) in Hcur. subst cur.
  assert (∀ joined later, others = joined ++ later →
            running_size devicestr w h joined
              ≤ batchsize (batch_info_of devicestr w h)) as Hacc.
  { intros [|x joined] later Heq; [unfold running_size; simpl; lia|].
    by apply (Hpre (x :: joined) later). }
  eexists _, h, others, pre, rest. split; [reflexivity|].
  split; [done|]. split.
  { intros rs d (_ & Hlen & -> & ->)%process_evicted_batched_run.
    repeat split. intros Ho. rewrite Ho in Hlen. simpl in Hlen. lia. }
  intros _. split; [done|]. split.
  { exists scanned, stopped. repeat split; [done|].
    destruct Hstop as [->|(x & tail & -> & Hj & Hgt)]; [by left|].
    right. by exists x, tail. }
  split; [done|].
  intros (Hbs & Hin & Hrange).
  assert (batch_total devicestr w (h :: others)
          = running_size devicestr w h others) as Htot.
  { unfold batch_total, running_size. symmetry.
    by apply (running_size_total w h
                (batchsize (batch_info_of devicestr w h))). }
  rewrite Htot. split; [done|]. split; [|done].
  by apply (Hacc others []), eq_sym, app_nil_r.
Qed.

(** The scan at a candidate head that passes on to the items behind
    it: commit, or move on to the next item with [do_run] left at 1. *)
Lemma min_batch_scan w it rest :
  extends_batch devicestr w it →
  let fl1 := {| do_unblock := false; do_run := true; do_retry := false;
                device_complete := false |} in
  (minbatchsize (batch_info_of devicestr w it) = 0
   ∨ minbatchsize (batch_info_of devicestr w it)
     ≤ (tentative devicestr w it rest).2 →
   ∀ fl, do_retry fl = false → device_complete fl = false →
   scan_items devicestr w fl (it :: rest) =
     Some (fl1, (tentative devicestr w it rest).1))
  ∧ (minbatchsize (batch_info_of devicestr w it) ≠ 0
     ∧ (tentative devicestr w it rest).2
       < minbatchsize (batch_info_of devicestr w it) →
     scan_items devicestr w flags0 (it :: rest) =
       scan_items devicestr w fl1 rest).
Proof.
  intros (Hdag & Hdev & Hrdy & Hb & Hne & Hlt) fl1. simpl.
  fold (info_of devicestr w it). fold (batch_info_of devicestr w it).
  rewrite Hdag, Hdev. simpl.
  destruct (Z.eqb_spec (currentOpReady (info_of devicestr w it)) 0);
    [done|].
  destruct (Z.eqb_spec (currentOpBatchable (info_of devicestr w it)) 0);
    [done|].
  destruct (Z.eqb_spec (inbatchsize (batch_info_of devicestr w it)) 0);
    [done|]. simpl.
  rewrite Z.geb_leb.
  destruct (Z.leb_spec (batchsize (batch_info_of devicestr w it))
              (inbatchsize (batch_info_of devicestr w it))); [lia|].
  unfold tentative.
  destruct (scan_next_items _ _ _ _ _ _ _ _) as [ev cur]. simpl.
  rewrite Z.geb_leb.
  destruct (Z.eqb_spec (minbatchsize (batch_info_of devicestr w it)) 0);
    simpl.
  - split; [|lia]. intros _ fl -> ->. done.
  - destruct (Z.leb_spec (minbatchsize (batch_info_of devicestr w it)) cur).
    + split; [|lia]. intros _ fl -> ->. done.
    + split; [lia|]. done.
Qed.

(** C5 (amended).  Let the head item pass on to the items behind it and
    let [S] be the size of the tentative batch.  If the minimum batch
    size is zero or at most [S], the tentative batch is what the loop
    body processes.  Otherwise the tentative batch is dropped and the
    scan goes on with the next queue item as candidate head; the worker
    leaves the loop to wait, with nothing evicted or executed, exactly
    when that scan reaches the end of the queue. *)
Theorem min_batch_rule q w it rest :
  items q = it :: rest →
  extends_batch devicestr w it →
  let fl1 := {| do_unblock := false; do_run := true; do_retry := false;
                device_complete := false |} in
  let B_min := minbatchsize (batch_info_of devicestr w it) in
  let S := (tentative devicestr w it rest).2 in
  (B_min = 0 ∨ B_min ≤ S →
   RedisAI_Run_ThreadMain_step devicestr q w =
     Some (process_evicted devicestr q w fl1
             (tentative devicestr w it rest).1))
  ∧ (B_min ≠ 0 ∧ S < B_min →
     RedisAI_Run_ThreadMain_step devicestr q w =
       match scan_items devicestr w fl1 rest with
       | None => None
       | Some (fl, evicted_items) =>
           Some (process_evicted devicestr q w fl evicted_items)
       end).
Proof.
  intros Hq (Hdag & Hdev & Hrdy & Hb & Hne & Hlt) fl1 B_min S.
  unfold RedisAI_Run_ThreadMain_step. rewrite Hq. simpl.
  fold (info_of devicestr w it). fold (batch_info_of devicestr w it).
  rewrite Hdag, Hdev. simpl.
  destruct (Z.eqb_spec (currentOpReady (info_of devicestr w it)) 0);
    [done|].
  destruct (Z.eqb_spec (currentOpBatchable (info_of devicestr w it)) 0);
    [done|].
  destruct (Z.eqb_spec (inbatchsize (batch_info_of devicestr w it)) 0);
    [done|]. simpl.
  rewrite Z.geb_leb.
  destruct (Z.leb_spec (batchsize (batch_info_of devicestr w it))
              (inbatchsize (batch_info_of devicestr w it))); [lia|].
  subst S B_min. unfold tentative.
  destruct (scan_next_items _ _ _ _ _ _ _ _) as [ev cur]. simpl.
  rewrite Z.geb_leb.
  destruct (Z.eqb_spec (minbatchsize (batch_info_of devicestr w it)) 0);
    simpl.
  - split; [done|]. lia.
  - destruct (Z.leb_spec (minbatchsize (batch_info_of devicestr w it)) cur).
    + split; [done|]. lia.
    + split; [lia|]. done.
Qed.

Lemma drain_continue n q w q1 w1 tr1 :
  items q ≠ [] →
  RedisAI_Run_ThreadMain_step devicestr q w = Some (q1, w1, tr1) →
  RedisAI_Run_ThreadMain_drain devicestr (S n) q w =
    let '(q2, w2, tr2, waits) :=
      RedisAI_Run_ThreadMain_drain devicestr n q1 w1 in
    (q2, w2, tr1 ++ tr2, waits).
Proof.
  intros Hne Hstep. simpl. rewrite Hstep.
  destruct (items q) as [|x l] eqn:Hq; [done|].
  unfold queueLength. rewrite Hq.
  by replace (Z.of_nat (length (x :: l)) >? 0) with true
    by (symmetry; rewrite Z.gtb_ltb; apply Z.ltb_lt; simpl; lia).
Qed.

(** C1 (the defect).  Let the head item [a] be ready and batchable with
    a tentative batch below a non-zero minimum batch size, and let the
    item [b] behind it be a complete DAG.  The scan moves on from [a]
    with [do_run] left at 1 and stops on [b] with [do_unblock] set as
    well, so [b] is executed and then pushed back on the queue.  If
    after that call the DAG of [b] has no error, a reference count of
    zero and its client [c], and still reports complete, then the first
    pass of the loop body unblocks [c] through the DAG-complete path and
    the second pass, finding [b] at the head, unblocks [c] again: two
    passes call [RedisModule_UnblockClient] twice for the same run
    info. *)
Theorem complete_dag_behind_small_batch_unblocked_twice q w a b rest c :
  items q = a :: b :: rest →
  extends_batch devicestr w a →
  minbatchsize (batch_info_of devicestr w a) ≠ 0 →
  (tentative devicestr w a (b :: rest)).2
    < minbatchsize (batch_info_of devicestr w a) →
  dagComplete (info_of devicestr w b) ≠ 0 →
  let q2 := (after_run devicestr q w [b]).1 in
  let w2 := (after_run devicestr q w [b]).2 in
  dagError w2 (value b) = 0 →
  dagRefCount w2 (value b) = 0 →
  client w2 (value b) = Some c →
  dagComplete (RedisAI_DagCurrentOpAndInfo w2 (value b) devicestr) ≠ 0 →
  ∃ q' tr,
    RedisAI_Run_ThreadMain_drain devicestr 2 q w = (q', w2, tr, false)
    ∧ tr = [EvRun (value b) devicestr; EvUnblock c (value b);
            EvFree (addr b); EvUnblock c (value b);
            EvFree (next_addr q2)]
    ∧ unblock_count (value b) tr = 2%nat.
Proof.
  intros Hq Hx Hmin Hsmall Hdag q2 w2 Herr Href Hcli Hdag2.
  destruct (min_batch_scan w a (b :: rest) Hx) as [_ Hgo].
  specialize (Hgo (conj Hmin Hsmall)).
  assert (scan_items devicestr w flags0 (items q) =
          Some ({| do_unblock := true; do_run := true; do_retry := false;
                   device_complete := false |}, [b])) as Hscan.
  { rewrite Hq, Hgo. simpl. fold (info_of devicestr w b).
    by destruct (Z.eqb_spec (dagComplete (info_of devicestr w b)) 0). }
  assert (RedisAI_Run_ThreadMain_step devicestr q w =
          Some (queuePushFront q2 (value b), w2,
                [EvRun (value b) devicestr; EvUnblock c (value b);
                 EvFree (addr b)])) as Hstep1.
  { unfold RedisAI_Run_ThreadMain_step. rewrite Hscan.
    rewrite process_evicted_run by done.
    fold q2 w2. cbn -[after_run]. fold q2 w2.
    unfold unblock_path. rewrite Hcli, Herr, Href. done. }
  assert (RedisAI_Run_ThreadMain_step devicestr
            (queuePushFront q2 (value b)) w2 =
          Some ({| items := items q2; next_addr := S (next_addr q2) |}, w2,
                [EvUnblock c (value b); EvFree (next_addr q2)])) as Hstep2.
  { unfold RedisAI_Run_ThreadMain_step. simpl.
    destruct (Z.eqb_spec
      (dagComplete (RedisAI_DagCurrentOpAndInfo w2 (value b) devicestr)) 0);
      [done|]. simpl.
    unfold process_evicted, unblock_path, queueEvict. simpl.
    by rewrite Hcli, Href, Nat.eqb_refl. }
  eexists _, _. split; [|split; [reflexivity|]].
  - erewrite drain_continue; [|by rewrite Hq|exact Hstep1].
    erewrite drain_continue; [|by simpl|exact Hstep2].
    reflexivity.
  - unfold unblock_count. simpl. by rewrite !Nat.eqb_refl.
Qed.

End WorkerFacts.

(** ** Facts about the registry *)

Section RegistryFacts.
Import Registry.
Variable perqueueThreadPoolSize : Z.
Variable pthread_create : nat → Z.
Variable pthread_join : state → option nat → option Z.

Lemma alloc_fresh (s : state) : heap s !! fresh (dom (heap s)) = None.
Proof. apply not_elem_of_dom, is_fresh. Qed.

(** A block allocated and freed again leaves the state as it was. *)
Lemma free_alloc b s :
  RedisModule_Free (RedisModule_Alloc b s).1 (RedisModule_Alloc b s).2 = s.
Proof.
  destruct s as [rq h wk n]. unfold RedisModule_Free, RedisModule_Alloc.
  simpl. f_equal. apply delete_insert_id, not_elem_of_dom, is_fresh.
Qed.

Lemma create_threads_registry n i info threads s :
  run_queues (create_threads pthread_create n i info threads s).2
  = run_queues s.
Proof.
  revert i s. induction n as [|n IH]; intros i s; simpl; [done|].
  destruct (negb _); [done|]. by rewrite IH.
Qed.


Lemma create_threads_first_fails n i info threads s :
  pthread_create (spawn_calls s) ≠ 0 → (0 < n)%nat →
  create_threads pthread_create n i info threads s =
    (false, {| run_queues := run_queues s; heap := heap s;
               workers := workers s; spawn_calls := S (spawn_calls s) |}).
Proof.
  intros Hfail Hn. destruct n as [|n]; [lia|]. simpl.
  by destruct (Z.eqb_spec (pthread_create (spawn_calls s)) 0).
Qed.

Lemma join_loop_unwritten s n result :
  (∀ s', is_Some (pthread_join s' None)) →
  is_Some (join_loop pthread_join s (replicate n None) result).
Proof.
  intros Hjoin. revert result.
  induction n as [|n IH]; intros result; simpl; [by eexists|].
  destruct (Hjoin s) as [rtn ->]. apply IH.
Qed.

(** A call for a registered name returns the record and changes
    nothing, whatever the pool size and the thread functions. *)
Lemma ensureRunQueue_registered s d devicestr entry :
  run_queues s = Some d →
  d !! strToUpper devicestr = Some entry →
  ensureRunQueue perqueueThreadPoolSize pthread_create pthread_join
    devicestr s = Returned REDISMODULE_OK (Some entry) s.
Proof.
  intros Hrq Hd. unfold ensureRunQueue. rewrite Hrq.
  pose proof (free_alloc (BString (strToUpper devicestr)) s) as Hfree.
  destruct (RedisModule_Alloc _ s) as [a s1]. rewrite Hd.
  simpl in Hfree. by rewrite Hfree.
Qed.

End RegistryFacts.

Section RegistryClaims.
Import Registry.
Variable perqueueThreadPoolSize : Z.
Variable pthread_create : nat → Z.
Variable pthread_join : state → option nat → option Z.


(** C9 (the defect).  Let the device be unregistered, the pool size
    positive, and let the first [pthread_create] fail, the joins on the
    slots never written returning.  The call returns [REDISMODULE_ERR]
    and the registry and the workers are as before; but it returns
    before the line that frees the upper-cased copy of the device
    string, which stays allocated, and the out-parameter holds the
    address of the record that [freeRunQueueInfo] has just freed. *)
Theorem spawn_failure_leaves_string_and_dangling_record s d devicestr :
  run_queues s = Some d →
  d !! strToUpper devicestr = None →
  0 < perqueueThreadPoolSize →
  pthread_create (spawn_calls s) ≠ 0 →
  (∀ s', is_Some (pthread_join s' None)) →
  ∃ info s',
    ensureRunQueue perqueueThreadPoolSize pthread_create pthread_join
      devicestr s = Returned REDISMODULE_ERR (Some info) s'
    ∧ run_queues s' = run_queues s
    ∧ workers s' = workers s
    ∧ heap s' !! info = None
    ∧ heap s !! fresh (dom (heap s)) = None
    ∧ heap s' = <[fresh (dom (heap s)) := BString (strToUpper devicestr)]>
                  (heap s).
Proof.
  intros Hrq Hd Hpool Hfail Hjoin.
  unfold ensureRunQueue. rewrite Hrq.
  unfold RedisModule_Alloc at 1. rewrite Hd.
  destruct s as [rq h wk calls]. simpl in *. subst rq.
  pose proof (alloc_fresh {| run_queues := Some d; heap := h;
                             workers := wk; spawn_calls := calls |}) as H0.
  simpl in H0. set (a0 := fresh (dom h)) in *. clearbody a0.
  set (up := BString (strToUpper devicestr)).
  unfold RedisModule_Alloc. simpl.
  set (h1 := <[a0:=up]> h).
  pose proof (not_elem_of_dom_1 _ _ (is_fresh (dom h1))) as H1.
  set (a1 := fresh (dom h1)) in *. clearbody a1.
  set (h2 := <[a1:=BInfo None None None]> h1).
  pose proof (not_elem_of_dom_1 _ _ (is_fresh (dom h2))) as H2.
  set (a2 := fresh (dom h2)) in *. clearbody a2.
  set (h3 := <[a2:=BQueue queueCreate]> h2).
  pose proof (not_elem_of_dom_1 _ _ (is_fresh (dom h3))) as H3.
  set (a3 := fresh (dom h3)) in *. clearbody a3.
  set (h4 := <[a3:=up]> h3).
  pose proof (not_elem_of_dom_1 _ _ (is_fresh (dom h4))) as H4.
  set (a4 := fresh (dom h4)) in *. clearbody a4.
  rewrite create_threads_first_fails by (simpl; done || lia).
  unfold freeRunQueueInfo, store. simpl.
  subst h4 h3 h2 h1.
  apply lookup_insert_None in H4 as [H4 Ha43].
  apply lookup_insert_None in H4 as [H4 Ha42].
  apply lookup_insert_None in H4 as [H4 Ha41].
  apply lookup_insert_None in H4 as [H4 Ha40].
  apply lookup_insert_None in H3 as [H3 Ha32].
  apply lookup_insert_None in H3 as [H3 Ha31].
  apply lookup_insert_None in H3 as [H3 Ha30].
  apply lookup_insert_None in H2 as [H2 Ha21].
  apply lookup_insert_None in H2 as [H2 Ha20].
  apply lookup_insert_None in H1 as [H1 Ha10].
  rewrite lookup_insert_eq. simpl.
  rewrite lookup_delete_ne, lookup_delete_ne by done.
  rewrite lookup_insert_ne, lookup_insert_eq by done.
  rewrite take_ge by (rewrite length_replicate; lia).
  match goal with
  | |- context [join_loop pthread_join ?st ?l ?r] =>
      destruct (join_loop_unwritten pthread_join st
                  (Z.to_nat perqueueThreadPoolSize) r Hjoin) as [res Hres];
      rewrite Hres
  end.
  simpl. eexists _, _. split; [reflexivity|]. simpl.
  split; [done|]. split; [done|].
  split; [apply lookup_delete_eq|]. split; [done|].
  apply map_eq. intros i.
  destruct (decide (i = a1)) as [->|]; [by simplify_map_eq|].
  destruct (decide (i = a4)) as [->|]; [by simplify_map_eq|].
  destruct (decide (i = a3)) as [->|]; [by simplify_map_eq|].
  destruct (decide (i = a2)) as [->|]; [by simplify_map_eq|].
  by simplify_map_eq.
Qed.

End RegistryClaims.

(** ** The properties on concrete runs *)

Section Runs.
Import TestEnv Scenarios.

(** C1, at an input: after the first pass has run the two DAGs as one
    batch, the DAG of client 11 is complete and sits behind the DAG of
    client 10, whose second model run is alone below the minimum batch
    size.  The next two passes unblock client 11 twice. *)
Lemma complete_dag_behind_small_batch_unblocked_twice_witness :
  ∃ q' w' tr,
    RedisAI_Run_ThreadMain_drain "CPU" 2 twice_queue twice_world
      = (q', w', tr, false)
    ∧ unblock_count 1 tr = 2%nat.
Proof.
  destruct (complete_dag_behind_small_batch_unblocked_twice (E := env)
              "CPU" twice_queue twice_world (item 3 0) (item 2 1) [] 11)
    as (q' & tr & Hdrain & _ & Hcount).
  - reflexivity.
  - repeat split; by vm_compute.
  - by vm_compute.
  - by vm_compute.
  - by vm_compute.
  - reflexivity.
  - reflexivity.
  - reflexivity.
  - by vm_compute.
  - by eexists q', _, tr.
Defined.

(** The whole run from the two enqueued DAGs: one batched call, then the
    complete DAG of client 11 is executed once more and its client is
    unblocked twice. *)
Example two_model_runs_trace :
  (RedisAI_Run_ThreadMain_drain "CPU" 3 twice_queue0 twice_world0).1.2
  = [EvBatchedRun [0; 1]%nat "CPU"; EvRun 1 "CPU"; EvUnblock 11 1;
     EvFree 2; EvUnblock 11 1; EvFree 4].
Proof. by vm_compute. Qed.

(** C2 as stated fails at an input: the head item is complete on this
    device and not as a whole, one reference is left and client 7 is
    bound, so that a decrement would yield zero and unblock; the loop body
    neither takes the reference count to zero nor unblocks. *)
Lemma device_complete_no_decrement_counterexample :
  deviceComplete (info_of "CPU" device_done_world (item 0 0)) ≠ 0
  ∧ dagComplete (info_of "CPU" device_done_world (item 0 0)) = 0
  ∧ dagRefCount device_done_world 0 = 1
  ∧ client device_done_world 0 = Some 7%nat
  ∧ ∃ q' w' tr,
      RedisAI_Run_ThreadMain_step "CPU" device_done_queue device_done_world
        = Some (q', w', tr)
      ∧ dagRefCount w' 0 = 1
      ∧ unblock_count 0 tr = 0%nat.
Proof.
  repeat split; try by vm_compute.
  eexists _, _, _. split; [by vm_compute|]. by vm_compute.
Qed.

(** C2 (amended), at the same input: the node at address 0 is freed and
    nothing else happens. *)
Lemma device_complete_frees_item_only_witness :
  RedisAI_Run_ThreadMain_step "CPU" device_done_queue device_done_world
  = Some ({| items := []; next_addr := 1 |}, device_done_world, [EvFree 0]).
Proof.
  apply (device_complete_frees_item_only (E := env) "CPU"
           device_done_queue device_done_world (item 0 0) []);
    by vm_compute.
Defined.

(** C3, at an input: the operation of the first DAG of a batch of two
    fails.  Its client is unblocked, and yet the DAG is back at the head
    of the queue and no item is freed. *)
Lemma errored_member_before_last_is_requeued_witness :
  ∃ q' tr,
    RedisAI_Run_ThreadMain_step "CPU" first_fails_queue first_fails_world
      = Some (q', (after_run "CPU" first_fails_queue first_fails_world
                     [item 0 0; item 1 1]).2, tr)
    ∧ (0%nat : RunInfo) ∈ values q'
    ∧ ∀ a, EvFree a ∉ tr.
Proof.
  apply (errored_member_before_last_is_requeued (E := env) "CPU"
           first_fails_queue first_fails_world
           {| do_unblock := false; do_run := true; do_retry := false;
              device_complete := false |} [item 0 0; item 1 1] 0%nat 1%nat).
  - by vm_compute.
  - reflexivity.
  - reflexivity.
  - apply list_elem_of_here.
  - by vm_compute.
  - reflexivity.
  - by vm_compute.
Defined.

(** With an interface that keeps reporting the next operation of such a
    DAG as ready, the second pass executes the errored DAG again. *)
Example first_fails_trace :
  (RedisAI_Run_ThreadMain_drain "CPU" 2 first_fails_queue
     first_fails_world).1.2
  = [EvBatchedRun [0; 1]%nat "CPU"; EvUnblock 10 0;
     EvBatchedRun [0; 1]%nat "CPU"].
Proof. by vm_compute. Qed.

(** C4, at an input: inputs of sizes 1, 2, a script operation, then
    inputs of sizes 2 and 1, for a target of 4.  The first two runs are
    executed as one batch of aggregate size 3; the scan passes over the
    script operation and stops at the run of size 2, and the last run,
    which would fit, is not part of the batch. *)
Lemma batched_run_within_bounds_witness :
  ∃ fl h others pre rest,
    scan_items "CPU" stop_world flags0 (items stop_queue)
      = Some (fl, h :: others)
    ∧ items stop_queue = pre ++ h :: rest
    ∧ (∀ rs d,
         EvBatchedRun rs d ∈ [EvBatchedRun [0; 1]%nat "CPU"] →
         rs = value <$> (h :: others) ∧ d = "CPU" ∧ others ≠ [])
    ∧ (others ≠ [] ∨ extends_batch "CPU" stop_world h →
       (∀ joined later, others = joined ++ later →
          running_size "CPU" stop_world h joined
            ≤ batchsize (batch_info_of "CPU" stop_world h))
       ∧ (∃ scanned stopped,
            rest = scanned ++ stopped
            ∧ others = List.filter (joins "CPU" stop_world h) scanned
            ∧ (stopped = []
               ∨ ∃ x tail,
                   stopped = x :: tail
                   ∧ joins "CPU" stop_world h x = true
                   ∧ batchsize (batch_info_of "CPU" stop_world h)
                     < size_add (running_size "CPU" stop_world h others)
                         (match_of "CPU" stop_world h x).2))
       ∧ (minbatchsize (batch_info_of "CPU" stop_world h) = 0
          ∨ minbatchsize (batch_info_of "CPU" stop_world h)
            ≤ running_size "CPU" stop_world h others)
       ∧ (dims_in_range "CPU" stop_world h others →
          batch_total "CPU" stop_world (h :: others)
            = running_size "CPU" stop_world h others
          ∧ batch_total "CPU" stop_world (h :: others)
            ≤ batchsize (batch_info_of "CPU" stop_world h)
          ∧ (minbatchsize (batch_info_of "CPU" stop_world h) = 0
             ∨ minbatchsize (batch_info_of "CPU" stop_world h)
               ≤ batch_total "CPU" stop_world (h :: others)))).
Proof.
  eapply (batched_run_within_bounds (E := env) "CPU" stop_queue stop_world).
  by vm_compute.
Defined.

(** The scan of that queue: the batch is the first two items, although
    the last one would still fit. *)
Example stop_scan_selection :
  scan_items "CPU" stop_world flags0 (items stop_queue)
  = Some ({| do_unblock := false; do_run := true; do_retry := false;
             device_complete := false |}, [item 0 0; item 1 1])
  ∧ joins "CPU" stop_world (item 0 0) (item 3 3) = true
  ∧ joins "CPU" stop_world (item 0 0) (item 4 4) = true
  ∧ size_add (running_size "CPU" stop_world (item 0 0) [item 1 1]) 2 = 5
  ∧ size_add (running_size "CPU" stop_world (item 0 0) [item 1 1]) 1 = 4.
Proof. by vm_compute. Qed.

(** C5 as stated fails at an input: the tentative batch of the head item
    is the first two items, of aggregate size 3, below the minimum of 4;
    the worker does not go to wait but runs the second and the third item
    as a batch, the second one being an item of the dropped batch. *)
Lemma small_batch_then_run_counterexample :
  extends_batch "CPU" grow_world (item 0 0)
  ∧ tentative "CPU" grow_world (item 0 0) [item 1 1; item 2 2]
    = ([item 0 0; item 1 1], 3)
  ∧ minbatchsize (batch_info_of "CPU" grow_world (item 0 0)) = 4
  ∧ RedisAI_Run_ThreadMain_step "CPU" grow_queue grow_world ≠ None
  ∧ ∃ q' w',
      RedisAI_Run_ThreadMain_step "CPU" grow_queue grow_world
        = Some (q', w', [EvBatchedRun [1; 2]%nat "CPU"]).
Proof.
  split; [repeat split; by vm_compute|].
  split; [by vm_compute|]. split; [by vm_compute|].
  split; [by vm_compute|]. eexists _, _. by vm_compute.
Qed.

(** C5 (amended), at the same input: the pass is the one of the scan
    that starts at the second item. *)
Lemma min_batch_rule_witness :
  RedisAI_Run_ThreadMain_step "CPU" grow_queue grow_world =
    match scan_items "CPU" grow_world
            {| do_unblock := false; do_run := true; do_retry := false;
               device_complete := false |} [item 1 1; item 2 2] with
    | None => None
    | Some (fl, evicted_items) =>
        Some (process_evicted "CPU" grow_queue grow_world fl evicted_items)
    end.
Proof.
  apply (min_batch_rule (E := env) "CPU" grow_queue grow_world (item 0 0)
           [item 1 1; item 2 2]).
  - reflexivity.
  - repeat split; by vm_compute.
  - split; by vm_compute.
Defined.

(** C6, at an input: the head DAG waits for an input and two other items
    are queued; after the pass it is second, the others in order. *)
Lemma retry_requeue_second_position_witness :
  ∃ it q',
    [item 0 0] = [it] ∧ it ∈ items waiting_queue
    ∧ currentOpReady (info_of "CPU" waiting_world it) = 0
    ∧ (∀ rest, items waiting_queue = it :: rest →
               values (queueEvict waiting_queue it) = value <$> rest)
    ∧ match values (queueEvict waiting_queue it) with
      | [] =>
          RedisAI_Run_ThreadMain_step "CPU" waiting_queue waiting_world
            = Some (q', waiting_world, [EvSleep 1000])
          ∧ values q' = [value it]
      | next_rinfo :: others =>
          RedisAI_Run_ThreadMain_step "CPU" waiting_queue waiting_world
            = Some (q', waiting_world, [])
          ∧ values q' = next_rinfo :: value it :: others
      end.
Proof.
  apply (retry_requeue_second_position (E := env) "CPU" waiting_queue
           waiting_world
           {| do_unblock := false; do_run := false; do_retry := true;
              device_complete := false |}).
  - by vm_compute.
  - reflexivity.
Defined.

Example retry_requeue_order :
  (λ r, values r.1.1) <$>
    RedisAI_Run_ThreadMain_step "CPU" waiting_queue waiting_world
  = Some [1; 0; 2]%nat.
Proof. by vm_compute. Qed.

(** C7, at an input: two DAGs run as a batch without error and come back
    at the front in their order. *)
Lemma successful_run_requeue_preserves_head_witness :
  [item 0 0; item 1 1] `sublist_of` items progress_queue
  ∧ ∃ q' tr first,
      RedisAI_Run_ThreadMain_step "CPU" progress_queue progress_world
        = Some (q', (after_run "CPU" progress_queue progress_world
                       [item 0 0; item 1 1]).2, tr)
      ∧ values q'
        = (value <$> [item 0 0; item 1 1])
          ++ values (after_run "CPU" progress_queue progress_world
                       [item 0 0; item 1 1]).1
      ∧ head (value <$> [item 0 0; item 1 1]) = Some first
      ∧ head (values q') = Some first.
Proof.
  apply (successful_run_requeue_preserves_head (E := env) "CPU"
           progress_queue progress_world
           {| do_unblock := false; do_run := true; do_retry := false;
              device_complete := false |} [item 0 0; item 1 1] 1%nat).
  - by vm_compute.
  - reflexivity.
  - reflexivity.
  - by vm_compute.
Defined.



(** C9, at an input: one worker per queue and a first [pthread_create]
    that fails with [EAGAIN]. *)
Lemma spawn_failure_leaves_string_and_dangling_record_witness :
  ∃ info s',
    Registry.ensureRunQueue 1 create_eagain Registry.join_live "cpu"
      Registry.init = Registry.Returned REDISMODULE_ERR (Some info) s'
    ∧ Registry.run_queues s' = Registry.run_queues Registry.init
    ∧ Registry.workers s' = Registry.workers Registry.init
    ∧ Registry.heap s' !! info = None
    ∧ Registry.heap Registry.init
        !! fresh (dom (Registry.heap Registry.init)) = None
    ∧ Registry.heap s'
      = <[fresh (dom (Registry.heap Registry.init))
          := Registry.BString (strToUpper "cpu")]>
          (Registry.heap Registry.init).
Proof.
  apply (spawn_failure_leaves_string_and_dangling_record 1 create_eagain
           Registry.join_live Registry.init ∅ "cpu").
  - reflexivity.
  - reflexivity.
  - lia.
  - by vm_compute.
  - intros s'. by eexists.
Defined.

(** With two workers per queue and a failure at the second thread, the
    call blocks in the join of the first worker, which is running. *)
Example spawn_failure_after_first_thread_blocks :
  ∃ s', Registry.ensureRunQueue 2
          (λ k, if Nat.eqb k 1 then 11 else 0) Registry.join_live "cpu"
          Registry.init = Registry.Blocked s'
        ∧ Registry.workers s' !! 0%nat = Some 1%nat.
Proof. eexists. by vm_compute. Qed.

End Runs.

(** * Further properties of the worker loop *)

Section WorkerMore.
Context {E : DagInterface}.
Variable devicestr : string.

Lemma run_count_app tr1 tr2 :
  run_count (tr1 ++ tr2) = (run_count tr1 + run_count tr2)%nat.
Proof. induction tr1 as [|e tr1 IH]; simpl; [done|]. rewrite IH. lia. Qed.

Lemma run_count_none tr :
  (∀ e, e ∈ tr → is_run_event e = false) → run_count tr = 0%nat.
Proof.
  induction tr as [|e tr IH]; intros Hall; simpl; [done|].
  rewrite (Hall e) by apply list_elem_of_here.
  rewrite IH; [done|]. intros e' He'. apply Hall.
  by apply list_elem_of_further.
Qed.

(** The trace of the loop body, piece by piece, and the state it hands
    back: the one after the run if there was one. *)
Lemma process_evicted_trace q w fl ev :
  let w2 := if do_run fl then (after_run devicestr q w ev).2 else w in
  ∃ tr_err tr_unb tr_retry tr_free,
    (process_evicted devicestr q w fl ev).2 =
      (if do_run fl then (run_step devicestr w (value <$> ev)).2 else [])
      ++ tr_err ++ tr_unb ++ tr_retry ++ tr_free
    ∧ (process_evicted devicestr q w fl ev).1.2 = w2
    ∧ (∀ e, e ∈ tr_err →
         do_run fl = true
         ∧ ∃ c r, e = EvUnblock c r ∧ r ∈ value <$> ev
                  ∧ dagError w2 r ≠ 0 ∧ dagRefCount w2 r = 0
                  ∧ client w2 r = Some c)
    ∧ (∀ e, e ∈ tr_unb →
         do_unblock fl = true
         ∧ ∃ c it rest, ev = it :: rest ∧ e = EvUnblock c (value it)
                        ∧ dagRefCount w2 (value it) = 0
                        ∧ client w2 (value it) = Some c)
    ∧ (∀ e, e ∈ tr_retry → e = EvSleep 1000)
    ∧ (∀ e, e ∈ tr_free → ∃ it, it ∈ ev ∧ e = EvFree (addr it)).
Proof.
  unfold process_evicted, after_run.
  set (q1 := foldl queueEvict q ev).
  destruct (do_run fl) eqn:Hrun.
  - destruct (run_step devicestr w (value <$> ev)) as [w1 tr1]. cbn [fst snd].
    destruct (peers q1 w1) as [q2 w2]. cbn [fst snd].
    pose proof (error_loop_events w2 (value <$> ev) 0) as Herr.
    destruct (error_loop w2 (value <$> ev) 0) as [re tre]. cbn [snd] in Herr.
    set (tr_unb := match do_unblock fl, ev with
                   | true, it :: _ => unblock_path w2 (value it)
                   | _, _ => []
                   end).
    destruct (match do_retry fl, ev with
              | true, it :: _ => retry_requeue q2 (value it)
              | _, _ => (q2, [])
              end) as [q3 tr3] eqn:Hretry.
    cbn [fst snd].
    exists tre, tr_unb, tr3,
      (if device_complete fl || do_unblock fl || (re =? 1)
       then EvFree <$> (addr <$> ev) else []).
    split; [by rewrite <- !app_assoc|]. split; [done|].
    split. { intros e He. split; [done|]. by apply Herr. }
    split.
    { subst tr_unb. intros e He.
      destruct (do_unblock fl), ev as [|it rest];
        try by apply elem_of_nil in He.
      split; [done|]. unfold unblock_path in He.
      destruct (client w2 (value it)) as [c|] eqn:Hc;
        [|by apply elem_of_nil in He].
      destruct (Z.eqb_spec (dagRefCount w2 (value it)) 0);
        [|by apply elem_of_nil in He].
      apply list_elem_of_singleton in He as ->. by exists c, it, rest. }
    split.
    { intros e He.
      destruct (do_retry fl), ev as [|it rest];
        try (injection Hretry as <- <-); try by apply elem_of_nil in He.
      unfold retry_requeue in Hretry. destruct (_ >? 0).
      - destruct (queuePop q2) as [[x|] q']; injection Hretry as <- <-;
          by apply elem_of_nil in He.
      - injection Hretry as <- <-. by apply list_elem_of_singleton in He. }
    intros e He. destruct (_ || _); [|by apply elem_of_nil in He].
    apply list_elem_of_fmap in He as (a & -> & Ha).
    apply list_elem_of_fmap in Ha as (it & -> & Hit). by exists it.
  - set (tr_unb := match do_unblock fl, ev with
                   | true, it :: _ => unblock_path w (value it)
                   | _, _ => []
                   end).
    destruct (match do_retry fl, ev with
              | true, it :: _ => retry_requeue q1 (value it)
              | _, _ => (q1, [])
              end) as [q3 tr3] eqn:Hretry.
    cbn [fst snd].
    exists [], tr_unb, tr3,
      (if device_complete fl || do_unblock fl || (0 =? 1)
       then EvFree <$> (addr <$> ev) else []).
    split; [done|]. split; [done|].
    split. { by intros e ?%elem_of_nil. }
    split.
    { subst tr_unb. intros e He.
      destruct (do_unblock fl), ev as [|it rest];
        try by apply elem_of_nil in He.
      split; [done|]. unfold unblock_path in He.
      destruct (client w (value it)) as [c|] eqn:Hc;
        [|by apply elem_of_nil in He].
      destruct (Z.eqb_spec (dagRefCount w (value it)) 0);
        [|by apply elem_of_nil in He].
      apply list_elem_of_singleton in He as ->. by exists c, it, rest. }
    split.
    { intros e He.
      destruct (do_retry fl), ev as [|it rest];
        try (injection Hretry as <- <-); try by apply elem_of_nil in He.
      unfold retry_requeue in Hretry. destruct (_ >? 0).
      - destruct (queuePop q1) as [[x|] q']; injection Hretry as <- <-;
          by apply elem_of_nil in He.
      - injection Hretry as <- <-. by apply list_elem_of_singleton in He. }
    intros e He. destruct (_ || _); [|by apply elem_of_nil in He].
    apply list_elem_of_fmap in He as (a & -> & Ha).
    apply list_elem_of_fmap in Ha as (it & -> & Hit). by exists it.
Qed.

(** X1.  Whatever the scan selects, it selects at least one item, the
    selected items are items of the queue in queue order, and the flags
    obey: a retry or a device-complete selection sets no other flag, an
    unblock selection is neither a retry nor device-complete, some flag is
    always set, and a selection of more than one item is a run that is not
    an unblock. *)
Theorem scan_selection_shape w l fl ev :
  scan_items devicestr w flags0 l = Some (fl, ev) →
  ev ≠ [] ∧ ev `sublist_of` l
  ∧ (do_retry fl = true →
     do_run fl = false ∧ do_unblock fl = false ∧ device_complete fl = false)
  ∧ (device_complete fl = true →
     do_run fl = false ∧ do_unblock fl = false ∧ do_retry fl = false)
  ∧ (do_unblock fl = true → do_retry fl = false ∧ device_complete fl = false)
  ∧ do_run fl || do_unblock fl || do_retry fl || device_complete fl = true
  ∧ ((1 < length ev)%nat → do_run fl = true ∧ do_unblock fl = false).
Proof.
  intros Hscan.
  destruct (scan_items_sublist devicestr _ _ _ _ Hscan)
    as (Hsub & it & others & ->).
  split; [done|]. split; [done|].
  destruct (scan_items_selected devicestr w l flags0 fl (it :: others)
              eq_refl eq_refl Hscan) as (pre & it' & rest & Hl & Hsel).
  inversion Hsel; subst; simpl; repeat split; try done;
    try (intros; lia); by rewrite orb_true_r.
Qed.

Lemma scan_next_items_members w h bs l acc cur ev cur' :
  scan_next_items devicestr w (value h) (currentOp (info_of devicestr w h))
    bs l acc cur = (ev, cur') →
  ∃ added,
    ev = acc ++ added ∧ added `sublist_of` l
    ∧ Forall (λ it, currentOpReady (info_of devicestr w it) ≠ 0
                    ∧ currentOpBatchable (info_of devicestr w it) ≠ 0
                    ∧ (match_of devicestr w h it).1 ≠ 0) added.
Proof.
  revert acc cur. induction l as [|x l IH]; intros acc cur; simpl.
  - intros [= <- <-]. exists []. rewrite app_nil_r. by repeat constructor.
  - fold (info_of devicestr w x).
    destruct (Z.eqb_spec (currentOpReady (info_of devicestr w x)) 0)
      as [|Hrdy]; simpl.
    { intros (added & -> & Hs & Hall)%IH. exists added.
      split; [done|]. split; [by apply sublist_cons|done]. }
    destruct (Z.eqb_spec (currentOpBatchable (info_of devicestr w x)) 0)
      as [|Hb]; simpl.
    { intros (added & -> & Hs & Hall)%IH. exists added.
      split; [done|]. split; [by apply sublist_cons|done]. }
    fold (match_of devicestr w h x).
    destruct (match_of devicestr w h x) as [batched nb] eqn:Hm.
    destruct (Z.eqb_spec batched 0) as [|Hbat].
    { intros (added & -> & Hs & Hall)%IH. exists added.
      split; [done|]. split; [by apply sublist_cons|done]. }
    destruct (_ >? _).
    { intros [= <- <-]. exists []. rewrite app_nil_r.
      split; [done|]. split; [apply sublist_nil_l|constructor]. }
    intros (added & -> & Hs & Hall)%IH. exists (x :: added).
    rewrite <- app_assoc. split; [done|]. split; [by apply sublist_skip|].
    constructor; [|done]. rewrite Hm. by simpl.
Qed.

(** X2.  When the scan selects a head item together with others, the
    head went through the batch extension, every other selected item is
    ready, batchable and reported as matching the head, and the others
    are items queued behind the head, in queue order.  No assumption on
    the sizes is needed. *)
Theorem batch_members_ready_and_matching w l fl h others :
  scan_items devicestr w flags0 l = Some (fl, h :: others) →
  others ≠ [] →
  extends_batch devicestr w h
  ∧ Forall (λ it, currentOpReady (info_of devicestr w it) ≠ 0
                  ∧ currentOpBatchable (info_of devicestr w it) ≠ 0
                  ∧ (match_of devicestr w h it).1 ≠ 0) others
  ∧ ∃ pre rest, l = pre ++ h :: rest ∧ others `sublist_of` rest.
Proof.
  intros Hscan Hne.
  destruct (scan_items_selected devicestr w l flags0 fl (h :: others)
              eq_refl eq_refl Hscan) as (pre & it & rest & Hl & Hsel).
  inversion Hsel as [| | | |ev cur Hx Ht Hmin]; subst; try done.
  apply scan_next_items_members in Ht as (added & [= <- <-] & Hs & Hall).
  split; [done|]. split; [done|]. by exists pre, rest.
Qed.

Lemma scan_next_items_bound w r op bs l acc cur :
  cur ≤ bs →
  (scan_next_items devicestr w r op bs l acc cur).2 ≤ bs.
Proof.
  revert acc cur. induction l as [|x l IH]; intros acc cur Hcur; simpl;
    [done|].
  destruct (_ || _); [by apply IH|].
  destruct (RedisAI_DagOpBatchingMatch _ _ _ _ _) as [batched nb].
  destruct (batched =? 0); [by apply IH|].
  rewrite Z.gtb_ltb.
  destruct (Z.ltb_spec bs (size_add cur nb)); [done|]. by apply IH.
Qed.

(** X3.  Whatever sizes the DAG interface reports, the running batch
    size the worker holds at the end of the batch extension (computed
    with wrapping [size_t] additions) is at most the target batch
    size. *)
Theorem running_batch_size_within_target w it rest :
  extends_batch devicestr w it →
  (tentative devicestr w it rest).2
    ≤ batchsize (batch_info_of devicestr w it).
Proof.
  intros (_ & _ & _ & _ & _ & Hlt). unfold tentative.
  apply scan_next_items_bound. lia.
Qed.

(** X4.  A head item whose DAG is complete is evicted and its node
    freed; nothing is run and the item does not come back.  The client is
    unblocked exactly when it is still bound and the reference count is
    zero. *)
Theorem dag_complete_head_unblocks_and_retires q w it rest :
  items q = it :: rest →
  dagComplete (info_of devicestr w it) ≠ 0 →
  ∃ tr,
    RedisAI_Run_ThreadMain_step devicestr q w =
      Some ({| items := rest; next_addr := next_addr q |}, w, tr)
    ∧ (∀ c, client w (value it) = Some c → dagRefCount w (value it) = 0 →
            tr = [EvUnblock c (value it); EvFree (addr it)])
    ∧ (client w (value it) = None ∨ dagRefCount w (value it) ≠ 0 →
       tr = [EvFree (addr it)]).
Proof.
  intros Hq Hdag. unfold RedisAI_Run_ThreadMain_step.
  rewrite Hq. simpl. fold (info_of devicestr w it).
  destruct (Z.eqb_spec (dagComplete (info_of devicestr w it)) 0); [done|].
  simpl. unfold process_evicted, queueEvict, unblock_path. simpl.
  rewrite Hq, unlink_head. eexists. split; [reflexivity|]. split.
  - intros c -> ->. done.
  - intros [->| Hne]; [done|].
    destruct (client w (value it)); [|done].
    by destruct (Z.eqb_spec (dagRefCount w (value it)) 0).
Qed.

(** X5.  A head item whose current op is ready and not batchable is
    selected alone and executed by the single-DAG step; the trace of the
    pass starts with that call and holds no other execution call. *)
Theorem ready_unbatchable_head_runs_alone q w it rest :
  items q = it :: rest →
  dagComplete (info_of devicestr w it) = 0 →
  deviceComplete (info_of devicestr w it) = 0 →
  currentOpReady (info_of devicestr w it) ≠ 0 →
  currentOpBatchable (info_of devicestr w it) = 0 →
  ∃ q' tr,
    RedisAI_Run_ThreadMain_step devicestr q w =
      Some (q', (after_run devicestr q w [it]).2,
            EvRun (value it) devicestr :: tr)
    ∧ run_count tr = 0%nat.
Proof.
  intros Hq Hdag Hdev Hrdy Hb.
  assert (scan_items devicestr w flags0 (items q) =
    Some ({| do_unblock := false; do_run := true; do_retry := false;
             device_complete := false |}, [it])) as Hscan.
  { rewrite Hq. simpl. fold (info_of devicestr w it).
    rewrite Hdag, Hdev, Hb. simpl.
    by destruct (Z.eqb_spec (currentOpReady (info_of devicestr w it)) 0). }
  unfold RedisAI_Run_ThreadMain_step. rewrite Hscan.
  rewrite process_evicted_run by done.
  cbn -[error_loop after_run].
  eexists _, _. split; [reflexivity|].
  rewrite run_count_app. rewrite !run_count_none; [done| |].
  - intros e He. destruct (_ =? 1); [|by apply elem_of_nil in He].
    by apply list_elem_of_singleton in He as ->.
  - intros e He. by apply error_loop_events in He as (c & r & -> & _).
Qed.

(** X6.  Every call of [RedisModule_UnblockClient] in a pass is made
    for the run info of an item that was in the queue, with the client
    that is bound to it and a reference count of zero in the state the
    pass hands back; and either the DAG has its error set in that state
    or the scan found the DAG complete.  In particular no call is made
    for a run info without a client. *)
Theorem unblock_needs_zero_refcount_and_client q w q' w' tr c r :
  RedisAI_Run_ThreadMain_step devicestr q w = Some (q', w', tr) →
  EvUnblock c r ∈ tr →
  client w' r = Some c ∧ dagRefCount w' r = 0
  ∧ ∃ it, it ∈ items q ∧ value it = r
          ∧ (dagError w' r ≠ 0 ∨ dagComplete (info_of devicestr w it) ≠ 0).
Proof.
  unfold RedisAI_Run_ThreadMain_step.
  destruct (scan_items devicestr w flags0 (items q)) as [[fl ev]|]
    eqn:Hscan; [|done].
  intros [= Hp] Hin.
  destruct (process_evicted_trace q w fl ev)
    as (tr_err & tr_unb & tr_retry & tr_free & Htr & Hw & Herr & Hunb
        & Hretry & Hfree).
  rewrite Hp in Htr, Hw. cbn [fst snd] in Htr, Hw. subst tr w'.
  destruct (scan_items_sublist devicestr _ _ _ _ Hscan) as (Hsub & _).
  rewrite !elem_of_app in Hin.
  destruct Hin as [Hin|[Hin|[Hin|[Hin|Hin]]]].
  - destruct (do_run fl); [|by apply elem_of_nil in Hin].
    by apply run_step_events in Hin as [[[=] _]|[? [=]]].
  - destruct (Herr _ Hin) as (_ & c' & r' & [= <- <-] & Hr & ? & ? & ?).
    split; [done|]. split; [done|].
    apply list_elem_of_fmap in Hr as (it & -> & Hit).
    exists it. split; [by eapply elem_of_sublist|]. split; [done|by left].
  - destruct (Hunb _ Hin) as (Hfl & c' & it & rest & -> & [= -> ->] & ? & ?).
    split; [done|]. split; [done|].
    exists it. split; [eapply elem_of_sublist; [apply list_elem_of_here|done]|].
    split; [done|]. right.
    destruct (scan_items_selected devicestr w (items q) flags0 fl
                (it :: rest) eq_refl eq_refl Hscan)
      as (pre & it' & rest' & Hl & Hsel).
    by inversion Hsel; subst.
  - by specialize (Hretry _ Hin).
  - by destruct (Hfree _ Hin) as (? & _ & [=]).
Qed.

(** X7.  A pass makes exactly one execution call when the scan decided
    to run and none otherwise; without a run the shared DAG state is
    handed back as it was found. *)
Theorem one_execution_call_per_pass q w q' w' tr :
  RedisAI_Run_ThreadMain_step devicestr q w = Some (q', w', tr) →
  ∃ fl ev,
    scan_items devicestr w flags0 (items q) = Some (fl, ev)
    ∧ run_count tr = (if do_run fl then 1 else 0)%nat
    ∧ (do_run fl = false → w' = w).
Proof.
  unfold RedisAI_Run_ThreadMain_step.
  destruct (scan_items devicestr w flags0 (items q)) as [[fl ev]|]
    eqn:Hscan; [|done].
  intros [= Hp]. exists fl, ev. split; [done|].
  destruct (process_evicted_trace q w fl ev)
    as (tr_err & tr_unb & tr_retry & tr_free & Htr & Hw & Herr & Hunb
        & Hretry & Hfree).
  rewrite Hp in Htr, Hw. cbn [fst snd] in Htr, Hw. subst tr w'.
  destruct (scan_items_sublist devicestr _ _ _ _ Hscan)
    as (_ & it & others & ->).
  split; [|by intros ->].
  rewrite !run_count_app.
  rewrite (run_count_none tr_err), (run_count_none tr_unb),
    (run_count_none tr_retry), (run_count_none tr_free).
  - destruct (do_run fl); [|done]. unfold run_step.
    destruct (_ <? _)%nat; done.
  - intros e He. by destruct (Hfree _ He) as (? & _ & ->).
  - intros e He. by rewrite (Hretry _ He).
  - intros e He. by destruct (Hunb _ He) as (_ & ? & ? & ? & _ & -> & _).
  - intros e He. by destruct (Herr _ He) as (_ & ? & ? & -> & _).
Qed.

(** X8.  When the selection runs and the error read for the last evicted
    item after the run is 1, no evicted item is pushed back: the queue is
    left as it was found when the lock was taken again, and the node of
    every evicted item is freed, whether its own DAG has an error or
    not. *)
Theorem error_after_run_retires_all_evicted q w fl ev r_last :
  scan_items devicestr w flags0 (items q) = Some (fl, ev) →
  do_run fl = true →
  last (value <$> ev) = Some r_last →
  dagError (after_run devicestr q w ev).2 r_last = 1 →
  ∃ tr,
    RedisAI_Run_ThreadMain_step devicestr q w =
      Some ((after_run devicestr q w ev).1,
            (after_run devicestr q w ev).2, tr)
    ∧ ∀ it, it ∈ ev → EvFree (addr it) ∈ tr.
Proof.
  intros Hscan Hrun Hlast Herr1.
  assert ((error_loop (after_run devicestr q w ev).2 (value <$> ev) 0).1 = 1)
    as Herr.
  { apply last_Some in Hlast as [l' ->]. by rewrite error_loop_last. }
  destruct (scan_items_selected devicestr w (items q) flags0 fl ev
              eq_refl eq_refl Hscan)
    as (pre & it' & rest & Hl & Hsel).
  pose proof (selected_run_no_retry _ _ _ _ _ _ Hsel Hrun) as Hretry.
  unfold RedisAI_Run_ThreadMain_step. rewrite Hscan.
  rewrite process_evicted_run by done. cbv zeta. rewrite Herr.
  change (1 =? 0) with false. change (1 =? 1) with true.
  rewrite !orb_true_r. cbv iota.
  eexists. split; [reflexivity|].
  intros it Hit. rewrite !elem_of_app. do 3 right.
  apply list_elem_of_fmap. exists (addr it). split; [done|].
  apply list_elem_of_fmap. by exists it.
Qed.

(** X9.  The loop body compares the recorded error with 0 to push the
    evicted items back and with 1 to free them.  When the error read for
    the last evicted item is neither (and the selection is not an
    unblock), the evicted items are neither pushed back nor freed: they
    are gone from the queue and their nodes stay allocated. *)
Theorem other_error_value_drops_evicted q w fl ev r_last :
  scan_items devicestr w flags0 (items q) = Some (fl, ev) →
  do_run fl = true →
  do_unblock fl = false →
  last (value <$> ev) = Some r_last →
  dagError (after_run devicestr q w ev).2 r_last ≠ 0 →
  dagError (after_run devicestr q w ev).2 r_last ≠ 1 →
  ∃ tr,
    RedisAI_Run_ThreadMain_step devicestr q w =
      Some ((after_run devicestr q w ev).1,
            (after_run devicestr q w ev).2, tr)
    ∧ ∀ a, EvFree a ∉ tr.
Proof.
  intros Hscan Hrun Hunb Hlast Hne0 Hne1.
  assert ((error_loop (after_run devicestr q w ev).2 (value <$> ev) 0).1
          = dagError (after_run devicestr q w ev).2 r_last) as Herr.
  { apply last_Some in Hlast as [l' ->]. by rewrite error_loop_last. }
  destruct (scan_items_selected devicestr w (items q) flags0 fl ev
              eq_refl eq_refl Hscan)
    as (pre & it' & rest & Hl & Hsel).
  pose proof (selected_run_no_retry _ _ _ _ _ _ Hsel Hrun) as Hretry.
  assert (device_complete fl = false) as Hdc by by destruct Hsel.
  unfold RedisAI_Run_ThreadMain_step. rewrite Hscan.
  rewrite process_evicted_run by done. cbv zeta. rewrite Herr, Hunb, Hdc.
  destruct (Z.eqb_spec (dagError (after_run devicestr q w ev).2 r_last) 0);
    [done|].
  destruct (Z.eqb_spec (dagError (after_run devicestr q w ev).2 r_last) 1);
    [done|].
  cbn [orb]. eexists. split; [reflexivity|].
  intros a Hin. rewrite !app_nil_r in Hin.
  apply elem_of_app in Hin as [Hin|Hin].
  - by apply run_step_events in Hin as [[[=] _]|[? [=]]].
  - by apply error_loop_events in Hin as (c & r' & ? & _).
Qed.

Lemma scan_items_all_below_minimum w l fl :
  (∀ pre it rest, l = pre ++ it :: rest →
     extends_batch devicestr w it
     ∧ minbatchsize (batch_info_of devicestr w it) ≠ 0
     ∧ (tentative devicestr w it rest).2
       < minbatchsize (batch_info_of devicestr w it)) →
  scan_items devicestr w fl l = None.
Proof.
  revert fl. induction l as [|x l IH]; intros fl Hall; simpl; [done|].
  destruct (Hall [] x l eq_refl)
    as ((Hdag & Hdev & Hrdy & Hb & Hne & Hlt) & Hmin & Hsmall).
  fold (info_of devicestr w x). fold (batch_info_of devicestr w x).
  rewrite Hdag, Hdev. simpl.
  destruct (Z.eqb_spec (currentOpReady (info_of devicestr w x)) 0); [done|].
  destruct (Z.eqb_spec (currentOpBatchable (info_of devicestr w x)) 0);
    [done|].
  destruct (Z.eqb_spec (inbatchsize (batch_info_of devicestr w x)) 0);
    [done|]. simpl.
  rewrite Z.geb_leb.
  destruct (Z.leb_spec (batchsize (batch_info_of devicestr w x))
              (inbatchsize (batch_info_of devicestr w x))); [lia|].
  unfold tentative in Hsmall.
  destruct (scan_next_items _ _ _ _ _ _ _ _) as [ev cur]. simpl in Hsmall.
  destruct (Z.eqb_spec (minbatchsize (batch_info_of devicestr w x)) 0);
    [done|]. simpl.
  rewrite Z.geb_leb.
  destruct (Z.leb_spec (minbatchsize (batch_info_of devicestr w x)) cur);
    [lia|].
  apply IH. intros pre it rest ->. by apply (Hall (x :: pre) it rest).
Qed.

(** X10.  When every item of the queue is a ready, batchable run whose
    tentative batch (with the items behind it) stays below a non-zero
    minimum batch size, the pass selects nothing: the worker leaves the
    loop to wait, and the queue, the shared state and the trace are
    untouched. *)
Theorem all_below_minimum_waits q w :
  (∀ pre it rest, items q = pre ++ it :: rest →
     extends_batch devicestr w it
     ∧ minbatchsize (batch_info_of devicestr w it) ≠ 0
     ∧ (tentative devicestr w it rest).2
       < minbatchsize (batch_info_of devicestr w it)) →
  RedisAI_Run_ThreadMain_step devicestr q w = None
  ∧ ∀ n, RedisAI_Run_ThreadMain_drain devicestr (S n) q w = (q, w, [], true).
Proof.
  intros Hall.
  assert (RedisAI_Run_ThreadMain_step devicestr q w = None) as Hstep.
  { unfold RedisAI_Run_ThreadMain_step.
    by rewrite scan_items_all_below_minimum. }
  split; [done|]. intros n. simpl. rewrite Hstep. by destruct (_ >? _).
Qed.

Lemma unlink_perm it l :
  it ∈ l → NoDup (addr <$> l) → l ≡ₚ it :: unlink (addr it) l.
Proof.
  induction l as [|x l IH]; [by intros ?%elem_of_nil|].
  intros Hin Hnd. simpl in Hnd. apply NoDup_cons in Hnd as [Hx Hnd].
  simpl. destruct (Nat.eqb_spec (addr x) (addr it)) as [Heq|Hneq].
  - apply elem_of_cons in Hin as [->|Hin]; [done|].
    exfalso. apply Hx. rewrite Heq. apply list_elem_of_fmap. by exists it.
  - apply elem_of_cons in Hin as [->|Hin]; [done|].
    rewrite (IH Hin Hnd) at 1. apply perm_swap.
Qed.

(** X11.  On a queue whose nodes have distinct addresses, a pass that
    ends in a retry keeps every queued run info: the run infos in the
    queue after the pass are a permutation of those before it. *)
Theorem retry_keeps_all_run_infos q w fl ev q' w' tr :
  NoDup (addr <$> items q) →
  scan_items devicestr w flags0 (items q) = Some (fl, ev) →
  do_retry fl = true →
  RedisAI_Run_ThreadMain_step devicestr q w = Some (q', w', tr) →
  values q' ≡ₚ values q.
Proof.
  intros Hnd Hscan Hretry.
  destruct (scan_items_selected devicestr w (items q) flags0 fl ev
              eq_refl eq_refl Hscan)
    as (pre & it & rest & Hl & Hsel).
  destruct (selected_retry _ _ _ _ _ _ Hsel Hretry) as (-> & -> & Hrdy).
  assert (it ∈ items q) as Hin.
  { rewrite Hl. apply elem_of_app. right. apply list_elem_of_here. }
  pose proof (unlink_perm it (items q) Hin Hnd) as Hperm.
  assert (values q ≡ₚ value it :: values (queueEvict q it)) as Hvals.
  { unfold values. simpl. by rewrite Hperm at 1. }
  unfold RedisAI_Run_ThreadMain_step. rewrite Hscan.
  unfold process_evicted.
  cbn [do_run do_unblock do_retry device_complete foldl andb orb].
  revert Hvals. generalize (queueEvict q it). intros [[|x r] n] Hvals.
  - intros [= <- <- <-]. by rewrite Hvals.
  - intros [= <- <- <-]. rewrite Hvals. unfold values. simpl.
    apply perm_swap.
Qed.

(** X12.  A pass frees only nodes it has evicted: every freed address is
    the address of an item the scan selected, and that item was in the
    queue. *)
Theorem frees_only_evicted_nodes q w q' w' tr a :
  RedisAI_Run_ThreadMain_step devicestr q w = Some (q', w', tr) →
  EvFree a ∈ tr →
  ∃ fl ev it,
    scan_items devicestr w flags0 (items q) = Some (fl, ev)
    ∧ it ∈ ev ∧ it ∈ items q ∧ addr it = a.
Proof.
  unfold RedisAI_Run_ThreadMain_step.
  destruct (scan_items devicestr w flags0 (items q)) as [[fl ev]|]
    eqn:Hscan; [|done].
  intros [= Hp] Hin.
  destruct (process_evicted_trace q w fl ev)
    as (tr_err & tr_unb & tr_retry & tr_free & Htr & Hw & Herr & Hunb
        & Hretry & Hfree).
  rewrite Hp in Htr. cbn [fst snd] in Htr. subst tr.
  destruct (scan_items_sublist devicestr _ _ _ _ Hscan) as (Hsub & _).
  rewrite !elem_of_app in Hin.
  destruct Hin as [Hin|[Hin|[Hin|[Hin|Hin]]]].
  - destruct (do_run fl); [|by apply elem_of_nil in Hin].
    by apply run_step_events in Hin as [[[=] _]|[? [=]]].
  - by destruct (Herr _ Hin) as (_ & ? & ? & [=] & _).
  - by destruct (Hunb _ Hin) as (_ & ? & ? & ? & _ & [=] & _).
  - by specialize (Hretry _ Hin).
  - destruct (Hfree _ Hin) as (it & Hit & [= ->]).
    exists fl, ev, it. split; [done|]. split; [done|].
    split; [by eapply elem_of_sublist|done].
Qed.

(** One pass on a queue of two items, the first one below a non-zero
    minimum batch size and the second one not ready: the second is
    evicted and pushed back behind the first, on fresh nodes. *)
Lemma spin_pass q w a b :
  items q = [a; b] → addr a ≠ addr b →
  extends_batch devicestr w a →
  minbatchsize (batch_info_of devicestr w a) ≠ 0 →
  inbatchsize (batch_info_of devicestr w a)
    < minbatchsize (batch_info_of devicestr w a) →
  dagComplete (info_of devicestr w b) = 0 →
  deviceComplete (info_of devicestr w b) = 0 →
  currentOpReady (info_of devicestr w b) = 0 →
  RedisAI_Run_ThreadMain_step devicestr q w =
    Some ({| items := [ {| addr := S (next_addr q); value := value a |};
                        {| addr := next_addr q; value := value b |} ];
             next_addr := S (S (next_addr q)) |}, w, []).
Proof.
  intros Hq Hab Hx Hmin Hsmall Hdag Hdev Hrdy.
  assert (tentative devicestr w a [b]
          = ([a], inbatchsize (batch_info_of devicestr w a))) as Ht.
  { unfold tentative. simpl. fold (info_of devicestr w b).
    by rewrite Hrdy. }
  pose proof (min_batch_scan devicestr w a [b] Hx) as [_ Hgo].
  rewrite Ht in Hgo. specialize (Hgo (conj Hmin Hsmall)).
  unfold RedisAI_Run_ThreadMain_step. rewrite Hq, Hgo. simpl.
  fold (info_of devicestr w b). rewrite Hdag, Hdev, Hrdy. simpl.
  unfold process_evicted, retry_requeue, queueLength, queuePop, queueEvict.
  simpl. rewrite Hq. simpl.
  destruct (Nat.eqb_spec (addr a) (addr b)); [done|]. simpl.
  by rewrite Nat.eqb_refl.
Qed.

(** X13.  A queue of two items, the first one a ready batchable run
    below a non-zero minimum batch size, the second one not ready, makes
    the worker spin: however many passes it makes, it never leaves the
    loop to wait, never runs, sleeps or unblocks anything, and the queue
    holds the same two run infos in the same order. *)
Theorem retry_behind_small_batch_spins n q w a b :
  items q = [a; b] → addr a ≠ addr b →
  extends_batch devicestr w a →
  minbatchsize (batch_info_of devicestr w a) ≠ 0 →
  inbatchsize (batch_info_of devicestr w a)
    < minbatchsize (batch_info_of devicestr w a) →
  dagComplete (info_of devicestr w b) = 0 →
  deviceComplete (info_of devicestr w b) = 0 →
  currentOpReady (info_of devicestr w b) = 0 →
  ∃ q',
    RedisAI_Run_ThreadMain_drain devicestr n q w = (q', w, [], false)
    ∧ values q' = values q.
Proof.
  revert q a b. induction n as [|n IH];
    intros q a b Hq Hab Hx Hmin Hsmall Hdag Hdev Hrdy.
  - by exists q.
  - pose proof (spin_pass q w a b Hq Hab Hx Hmin Hsmall Hdag Hdev Hrdy)
      as Hstep.
    erewrite drain_continue; [|by rewrite Hq|exact Hstep].
    destruct (IH {| items := [ {| addr := S (next_addr q);
                                  value := value a |};
                               {| addr := next_addr q; value := value b |} ];
                    next_addr := S (S (next_addr q)) |}
                {| addr := S (next_addr q); value := value a |}
                {| addr := next_addr q; value := value b |})
      as (q' & -> & Hv); [reflexivity|simpl; lia|done..|].
    exists q'. split; [done|]. rewrite Hv. unfold values. by rewrite Hq.
Qed.

End WorkerMore.

(** * Further properties of the registry *)

Lemma toupper_idempotent c : toupper (toupper c) = toupper c.
Proof. by destruct c as [[] [] [] [] [] [] [] []]. Qed.

Lemma toupper_not_lower c : ¬ islower (toupper c).
Proof.
  destruct c as [[] [] [] [] [] [] [] []]; unfold islower; cbv; lia.
Qed.

Lemma toupper_fixed c : toupper c = c ↔ ¬ islower c.
Proof.
  split.
  - intros <-. apply toupper_not_lower.
  - unfold toupper, islower. intros Hc.
    destruct (Nat.leb_spec 97 (nat_of_ascii c)); [|done].
    destruct (Nat.leb_spec (nat_of_ascii c) 122); [|done]. lia.
Qed.

(** X14.  Upper-casing is idempotent and keeps the length: a device name
    already in upper case is its own normal form. *)
Theorem strToUpper_idempotent input :
  strToUpper (strToUpper input) = strToUpper input
  ∧ String.length (strToUpper input) = String.length input.
Proof.
  induction input as [|c input [IH1 IH2]]; [done|]. simpl.
  by rewrite toupper_idempotent, IH1, IH2.
Qed.

(** X15.  The upper-cased copy holds no lower-case letter, and the
    strings [strToUpper] leaves unchanged are exactly those without a
    lower-case letter. *)
Theorem strToUpper_fixed_points input :
  Forall (λ c, ¬ islower c) (list_ascii_of_string (strToUpper input))
  ∧ (strToUpper input = input
     ↔ Forall (λ c, ¬ islower c) (list_ascii_of_string input)).
Proof.
  induction input as [|c input [IH1 IH2]]; simpl.
  - by repeat split.
  - split; [constructor; [apply toupper_not_lower|done]|].
    rewrite Forall_cons. rewrite <- IH2, <- toupper_fixed.
    split; [by intros [= -> ->]|by intros [-> ->]].
Qed.

Section RegistryMore.
Import Registry.
Variable perqueueThreadPoolSize : Z.
Variable pthread_create : nat → Z.
Variable pthread_join : state → option nat → option Z.

Abbreviation ensure :=
  (ensureRunQueue perqueueThreadPoolSize pthread_create pthread_join).

Lemma freeRunQueueInfo_registry info s :
  run_queues (freeRunQueueInfo perqueueThreadPoolSize pthread_join info s).2
  = run_queues s.
Proof.
  unfold freeRunQueueInfo.
  destruct (heap s !! info) as [[| | |rq dev th]|]; try done.
  destruct th as [t|]; [|by destruct rq, dev].
  destruct (join_loop _ _ _ _); by destruct rq, dev.
Qed.

(** The four ways a call of [ensureRunQueue] ends. *)
Lemma ensureRunQueue_cases devicestr s :
  (run_queues s = None ∧ ensure devicestr s = Returned REDISMODULE_ERR None s)
  ∨ (∃ d entry,
       run_queues s = Some d ∧ d !! strToUpper devicestr = Some entry
       ∧ ensure devicestr s = Returned REDISMODULE_OK (Some entry) s)
  ∨ (∃ d info s',
       run_queues s = Some d ∧ d !! strToUpper devicestr = None
       ∧ ensure devicestr s = Returned REDISMODULE_OK (Some info) s'
       ∧ run_queues s' = Some (<[strToUpper devicestr := info]> d))
  ∨ (∃ d,
       run_queues s = Some d ∧ d !! strToUpper devicestr = None
       ∧ run_queues (outcome_state (ensure devicestr s)) = Some d
       ∧ ((∃ s', ensure devicestr s = Blocked s')
          ∨ ∃ info s',
              ensure devicestr s = Returned REDISMODULE_ERR (Some info) s')).
Proof.
  destruct (run_queues s) as [d|] eqn:Hrq.
  2:{ left. unfold ensureRunQueue. by rewrite Hrq. }
  right.
  destruct (d !! strToUpper devicestr) as [entry|] eqn:Hd.
  { left. exists d, entry. split; [done|]. split; [done|].
    by eapply ensureRunQueue_registered. }
  right. unfold ensureRunQueue. rewrite Hrq.
  unfold RedisModule_Alloc. simpl. rewrite Hd.
  match goal with
  | |- context [create_threads pthread_create ?n ?i ?a ?t ?st] =>
      pose proof (create_threads_registry pthread_create n i a t st) as Hr;
      destruct (create_threads pthread_create n i a t st) as [ok s7]
  end.
  simpl in Hr. destruct ok.
  - left. eexists d, _, _. split; [done|]. split; [done|].
    split; [reflexivity|]. simpl. by rewrite Hr, Hrq.
  - right. exists d. split; [done|]. split; [done|].
    match goal with
    | |- context [freeRunQueueInfo ?p ?j ?a s7] =>
        pose proof (freeRunQueueInfo_registry a s7) as Hf;
        destruct (freeRunQueueInfo p j a s7) as [[r|] s8]
    end; simpl in Hf |- *.
    + split; [by rewrite Hf, Hr|]. right. by eexists _, _.
    + split; [by rewrite Hf, Hr|]. left. by eexists.
Qed.

(** X16.  A call that returns [REDISMODULE_OK] has stored a record in
    the out-parameter and the registry maps the upper-cased device name
    to that record; a call that returns anything else leaves the
    registry as it was. *)
Theorem ensureRunQueue_result devicestr s rc out s' :
  ensure devicestr s = Returned rc out s' →
  (rc = REDISMODULE_OK
   ∧ ∃ info d', out = Some info ∧ run_queues s' = Some d'
                ∧ d' !! strToUpper devicestr = Some info)
  ∨ (rc = REDISMODULE_ERR ∧ run_queues s' = run_queues s).
Proof.
  intros Hcall.
  destruct (ensureRunQueue_cases devicestr s)
    as [(Hrq & He)|[(d & entry & Hrq & Hd & He)
       |[(d & info & s1 & Hrq & Hd & He & Hs1)|(d & Hrq & Hd & Hst & He)]]];
    rewrite Hcall in *.
  - injection He as -> -> ->. by right.
  - injection He as -> -> ->. left. split; [done|]. by exists entry, d.
  - injection He as -> -> ->. left. split; [done|].
    exists info, (<[strToUpper devicestr:=info]> d).
    split; [done|]. split; [done|]. apply lookup_insert_eq.
  - simpl in Hst. destruct He as [[? [=]]|(info & s1 & [= -> -> ->])].
    right. by rewrite Hst, Hrq.
Qed.

(** X17.  However a call ends, returned or blocked, the registry keeps
    every entry it had, and the only key whose entry can have changed is
    the upper-cased device name of the call. *)
Theorem ensureRunQueue_keeps_entries devicestr s d :
  run_queues s = Some d →
  ∃ d', run_queues (outcome_state (ensure devicestr s)) = Some d'
        ∧ (∀ key entry, d !! key = Some entry → d' !! key = Some entry)
        ∧ (∀ key, key ≠ strToUpper devicestr → d' !! key = d !! key).
Proof.
  intros Hrq.
  destruct (ensureRunQueue_cases devicestr s)
    as [(Hrq' & He)|[(d0 & entry & Hrq' & Hd & He)
       |[(d0 & info & s1 & Hrq' & Hd & He & Hs1)|(d0 & Hrq' & Hd & Hst & He)]]];
    rewrite Hrq in Hrq'; try done; injection Hrq' as <-.
  - exists d. rewrite He. by simpl.
  - exists (<[strToUpper devicestr:=info]> d). rewrite He. simpl.
    split; [done|]. split.
    + intros key entry Hk. rewrite lookup_insert_ne; [done|]. congruence.
    + intros key Hk. by rewrite lookup_insert_ne.
  - by exists d.
Qed.

(** X18.  If every key of the registry is its own upper-cased form, this
    is still so after a call, however it ends. *)
Theorem ensureRunQueue_keeps_keys_normalized devicestr s d :
  run_queues s = Some d → normalized d →
  ∃ d', run_queues (outcome_state (ensure devicestr s)) = Some d'
        ∧ normalized d'.
Proof.
  intros Hrq Hnorm.
  destruct (ensureRunQueue_cases devicestr s)
    as [(Hrq' & He)|[(d0 & entry & Hrq' & Hd & He)
       |[(d0 & info & s1 & Hrq' & Hd & He & Hs1)|(d0 & Hrq' & Hd & Hst & He)]]];
    rewrite Hrq in Hrq'; try done; injection Hrq' as <-.
  - exists d. rewrite He. by simpl.
  - exists (<[strToUpper devicestr:=info]> d). rewrite He. simpl.
    split; [done|]. intros key Hk.
    destruct (decide (key = strToUpper devicestr)) as [->|Hne].
    + apply strToUpper_idempotent.
    + rewrite lookup_insert_ne in Hk by done. by apply Hnorm.
  - by exists d.
Qed.

(** The creation loop when every [pthread_create] succeeds: slot [j] of
    the thread array receives the handle of the [j]-th thread started,
    and each thread started runs on the record. *)
Lemma create_threads_all_started n : ∀ i info th s handles,
  (∀ k, pthread_create k = 0) →
  heap s !! th = Some (BThreads handles) →
  (i + n ≤ length handles)%nat →
  ∃ s' handles',
    create_threads pthread_create n i info th s = (true, s')
    ∧ run_queues s' = run_queues s
    ∧ spawn_calls s' = (spawn_calls s + n)%nat
    ∧ heap s' = <[th := BThreads handles']> (heap s)
    ∧ length handles' = length handles
    ∧ (∀ j, (i ≤ j < i + n)%nat →
            handles' !! j = Some (Some (spawn_calls s + (j - i))%nat))
    ∧ (∀ j, ¬ (i ≤ j < i + n)%nat → handles' !! j = handles !! j)
    ∧ (∀ t, workers s' !! t =
            if decide (spawn_calls s ≤ t < spawn_calls s + n)%nat
            then Some info else workers s !! t).
Proof.
  induction n as [|n IH]; intros i info th s handles Hok Hth Hlen.
  - exists s, handles. simpl. split; [done|]. split; [done|].
    split; [lia|]. split; [by rewrite insert_id|]. split; [done|].
    split; [intros; lia|]. split; [done|].
    intros t. case_decide; [lia|done].
  - simpl. rewrite Hok. simpl. rewrite Hth.
    set (s1 := {| run_queues := run_queues s;
                  heap := <[th:=BThreads (<[i:=Some (spawn_calls s)]> handles)]>
                            (heap s);
                  workers := <[spawn_calls s:=info]> (workers s);
                  spawn_calls := S (spawn_calls s) |}).
    destruct (IH (S i) info th s1 (<[i:=Some (spawn_calls s)]> handles) Hok)
      as (s' & handles' & -> & Hrq & Hcalls & Hheap & Hlen' & Hin & Hout & Hw).
    { simpl. apply lookup_insert_eq. }
    { rewrite length_insert. lia. }
    exists s', handles'. split; [done|]. split; [done|].
    split; [rewrite Hcalls; simpl; lia|].
    split; [rewrite Hheap; simpl; by rewrite insert_insert_eq|].
    split; [by rewrite Hlen', length_insert|].
    split; [|split].
    + intros j Hj. destruct (decide (j = i)) as [->|Hne].
      * rewrite Hout by lia. rewrite list_lookup_insert_eq by lia.
        do 2 f_equal. lia.
      * rewrite Hin by lia. simpl. do 2 f_equal. lia.
    + intros j Hj. rewrite Hout by lia.
      apply list_lookup_insert_ne. lia.
    + intros t. rewrite Hw. simpl.
      repeat case_decide; try done; try lia.
      * destruct (decide (t = spawn_calls s)) as [->|]; [|lia].
        by rewrite lookup_insert_eq.
      * rewrite lookup_insert_ne; [done|lia].
Qed.

(** X19.  On an initialised registry that has no entry for the
    upper-cased device name, with every thread creation succeeding, the
    call returns [REDISMODULE_OK] and registers a new record under the
    upper-cased name.  The heap gains exactly four blocks: the record, an
    empty queue, a copy of the upper-cased name and the thread array (the
    temporary upper-cased string is freed).  Exactly
    [perqueueThreadPoolSize] threads are started, each on the new record,
    and slot [j] of the array holds the handle of the [j]-th one. *)
Theorem ensureRunQueue_creates_record s d devicestr :
  run_queues s = Some d →
  d !! strToUpper devicestr = None →
  (∀ k, pthread_create k = 0) →
  ∃ info rq dev th handles s',
    ensure devicestr s = Returned REDISMODULE_OK (Some info) s'
    ∧ run_queues s' = Some (<[strToUpper devicestr := info]> d)
    ∧ NoDup [info; rq; dev; th]
    ∧ Forall (λ a, heap s !! a = None) [info; rq; dev; th]
    ∧ heap s' =
        <[th := BThreads handles]>
          (<[dev := BString (strToUpper devicestr)]>
             (<[rq := BQueue queueCreate]>
                (<[info := BInfo (Some rq) (Some dev) (Some th)]> (heap s))))
    ∧ length handles = Z.to_nat perqueueThreadPoolSize
    ∧ (∀ j, (j < Z.to_nat perqueueThreadPoolSize)%nat →
            handles !! j = Some (Some (spawn_calls s + j)%nat))
    ∧ (∀ t, workers s' !! t =
            if decide (spawn_calls s ≤ t
                       < spawn_calls s + Z.to_nat perqueueThreadPoolSize)%nat
            then Some info else workers s !! t)
    ∧ spawn_calls s' = (spawn_calls s + Z.to_nat perqueueThreadPoolSize)%nat.
Proof.
  intros Hrq Hd Hok.
  unfold ensureRunQueue. rewrite Hrq.
  unfold RedisModule_Alloc at 1. rewrite Hd.
  destruct s as [rq0 h wk calls]. simpl in *. subst rq0.
  pose proof (not_elem_of_dom_1 _ _ (is_fresh (dom h))) as H0.
  set (a0 := fresh (dom h)) in *. clearbody a0.
  set (up := BString (strToUpper devicestr)).
  unfold RedisModule_Alloc. simpl.
  set (h1 := <[a0:=up]> h).
  pose proof (not_elem_of_dom_1 _ _ (is_fresh (dom h1))) as H1.
  set (a1 := fresh (dom h1)) in *. clearbody a1.
  set (h2 := <[a1:=BInfo None None None]> h1).
  pose proof (not_elem_of_dom_1 _ _ (is_fresh (dom h2))) as H2.
  set (a2 := fresh (dom h2)) in *. clearbody a2.
  set (h3 := <[a2:=BQueue queueCreate]> h2).
  pose proof (not_elem_of_dom_1 _ _ (is_fresh (dom h3))) as H3.
  set (a3 := fresh (dom h3)) in *. clearbody a3.
  set (h4 := <[a3:=up]> h3).
  pose proof (not_elem_of_dom_1 _ _ (is_fresh (dom h4))) as H4.
  set (a4 := fresh (dom h4)) in *. clearbody a4.
  subst h4 h3 h2 h1.
  apply lookup_insert_None in H4 as [H4 Ha43].
  apply lookup_insert_None in H4 as [H4 Ha42].
  apply lookup_insert_None in H4 as [H4 Ha41].
  apply lookup_insert_None in H4 as [H4 Ha40].
  apply lookup_insert_None in H3 as [H3 Ha32].
  apply lookup_insert_None in H3 as [H3 Ha31].
  apply lookup_insert_None in H3 as [H3 Ha30].
  apply lookup_insert_None in H2 as [H2 Ha21].
  apply lookup_insert_None in H2 as [H2 Ha20].
  apply lookup_insert_None in H1 as [H1 Ha10].
  set (n := Z.to_nat perqueueThreadPoolSize).
  unfold store. simpl.
  match goal with
  | |- context [create_threads pthread_create n 0 a1 a4 ?st] =>
      destruct (create_threads_all_started n 0 a1 a4 st (replicate n None)
                  Hok)
        as (s' & handles & -> & Hrq' & Hcalls & Hheap & Hlen & Hin & _ & Hw)
  end.
  { simpl. rewrite lookup_insert_ne by done. apply lookup_insert_eq. }
  { rewrite length_replicate. lia. }
  simpl in Hrq', Hcalls, Hheap, Hw.
  exists a1, a2, a3, a4, handles. eexists. split; [reflexivity|]. simpl.
  split; [by rewrite Hrq'|].
  split.
  { repeat apply NoDup_cons_2; try apply NoDup_nil_2;
      rewrite ?not_elem_of_cons; repeat split; try congruence;
      by intros ?%elem_of_nil. }
  split. { by repeat constructor. }
  split.
  { rewrite Hheap. apply map_eq. intros i.
    destruct (decide (i = a0)) as [->|]; [by simplify_map_eq|].
    destruct (decide (i = a4)) as [->|]; [by simplify_map_eq|].
    destruct (decide (i = a3)) as [->|]; [by simplify_map_eq|].
    destruct (decide (i = a2)) as [->|]; [by simplify_map_eq|].
    destruct (decide (i = a1)) as [->|]; by simplify_map_eq. }
  split; [by rewrite Hlen, length_replicate|].
  split. { intros j Hj. rewrite Hin by lia. simpl. do 2 f_equal. lia. }
  split; [done|]. done.
Qed.

Lemma join_loop_result s slots result r :
  join_loop pthread_join s slots result = Some r →
  Forall (λ slot, is_Some (pthread_join s slot)) slots
  ∧ (Forall (λ slot, pthread_join s slot = Some 0) slots → r = result)
  ∧ (¬ Forall (λ slot, pthread_join s slot = Some 0) slots →
     r = REDISMODULE_ERR).
Proof.
  revert result. induction slots as [|slot slots IH]; intros result; simpl.
  - intros [= ->]. split; [constructor|]. split; [done|].
    intros Hn. destruct Hn. constructor.
  - destruct (pthread_join s slot) as [rtn|] eqn:Hj; [|done].
    intros (Hall & Hok & Herr)%IH.
    split; [constructor; [by rewrite Hj|done]|].
    destruct (Z.eqb_spec rtn 0) as [->|Hne].
    + split.
      * intros [_ Hs]%Forall_cons. by apply Hok.
      * intros Hn. apply Herr. intros Hs. apply Hn. by constructor.
    + split.
      * intros [Hs _]%Forall_cons. rewrite Hj in Hs. congruence.
      * intros _. destruct (decide (Forall (λ slot0, pthread_join s slot0
                                              = Some 0) slots)) as [Hs|Hs].
        -- by apply Hok.
        -- by apply Herr.
Qed.

(** X20.  On a record whose queue, device name and thread array are
    allocated, [freeRunQueueInfo] joins every slot of the thread array
    (it goes on after a join that fails); when all the joins return, the
    four blocks are freed, the registry and the workers are untouched,
    and the result is [REDISMODULE_OK] if every join returned 0 and
    [REDISMODULE_ERR] otherwise. *)
Theorem freeRunQueueInfo_frees_record s info rq dev th handles r s' :
  heap s !! info = Some (BInfo (Some rq) (Some dev) (Some th)) →
  heap s !! th = Some (BThreads handles) →
  th ≠ rq → th ≠ dev →
  length handles = Z.to_nat perqueueThreadPoolSize →
  freeRunQueueInfo perqueueThreadPoolSize pthread_join info s
    = (Some r, s') →
  let s2 := RedisModule_Free dev (RedisModule_Free rq s) in
  heap s' = delete info (delete th (delete dev (delete rq (heap s))))
  ∧ run_queues s' = run_queues s ∧ workers s' = workers s
  ∧ Forall (λ slot, is_Some (pthread_join s2 slot)) handles
  ∧ (Forall (λ slot, pthread_join s2 slot = Some 0) handles →
     r = REDISMODULE_OK)
  ∧ (¬ Forall (λ slot, pthread_join s2 slot = Some 0) handles →
     r = REDISMODULE_ERR).
Proof.
  intros Hinfo Hth Hrq Hdev Hlen. unfold freeRunQueueInfo.
  rewrite Hinfo. simpl.
  rewrite lookup_delete_ne, lookup_delete_ne, Hth by done.
  rewrite take_ge by lia.
  destruct (join_loop _ _ _ _) as [res|] eqn:Hjoin; [|done].
  intros [= <- <-]. simpl.
  apply join_loop_result in Hjoin as (Hall & Hok & Herr).
  by repeat split.
Qed.

(** X21.  Let the device be unregistered and the pool hold at least two
    threads; let the first [pthread_create] succeed and the second fail,
    and let a join on a running worker not return.  Then the call does
    not return: [freeRunQueueInfo] has freed the queue and the device
    name of the record and is blocked joining the worker that was
    started, which is still running on that record. *)
Theorem spawn_failure_after_worker_started_blocks s d devicestr :
  run_queues s = Some d →
  d !! strToUpper devicestr = None →
  1 < perqueueThreadPoolSize →
  pthread_create (spawn_calls s) = 0 →
  pthread_create (S (spawn_calls s)) ≠ 0 →
  (∀ s' t, is_Some (workers s' !! t) → pthread_join s' (Some t) = None) →
  ∃ s' info,
    ensure devicestr s = Blocked s'
    ∧ run_queues s' = run_queues s
    ∧ workers s' !! spawn_calls s = Some info
    ∧ ∃ rq dev th, heap s' !! info = Some (BInfo (Some rq) (Some dev) (Some th))
                   ∧ heap s' !! rq = None ∧ heap s' !! dev = None.
Proof.
  intros Hrq Hd Hpool Hfirst Hsecond Hjoin.
  unfold ensureRunQueue. rewrite Hrq.
  unfold RedisModule_Alloc at 1. rewrite Hd.
  destruct s as [rq0 h wk calls]. simpl in *. subst rq0.
  pose proof (not_elem_of_dom_1 _ _ (is_fresh (dom h))) as H0.
  set (a0 := fresh (dom h)) in *. clearbody a0.
  set (up := BString (strToUpper devicestr)).
  unfold RedisModule_Alloc. simpl.
  set (h1 := <[a0:=up]> h).
  pose proof (not_elem_of_dom_1 _ _ (is_fresh (dom h1))) as H1.
  set (a1 := fresh (dom h1)) in *. clearbody a1.
  set (h2 := <[a1:=BInfo None None None]> h1).
  pose proof (not_elem_of_dom_1 _ _ (is_fresh (dom h2))) as H2.
  set (a2 := fresh (dom h2)) in *. clearbody a2.
  set (h3 := <[a2:=BQueue queueCreate]> h2).
  pose proof (not_elem_of_dom_1 _ _ (is_fresh (dom h3))) as H3.
  set (a3 := fresh (dom h3)) in *. clearbody a3.
  set (h4 := <[a3:=up]> h3).
  pose proof (not_elem_of_dom_1 _ _ (is_fresh (dom h4))) as H4.
  set (a4 := fresh (dom h4)) in *. clearbody a4.
  subst h4 h3 h2 h1.
  apply lookup_insert_None in H4 as [H4 Ha43].
  apply lookup_insert_None in H4 as [H4 Ha42].
  apply lookup_insert_None in H4 as [H4 Ha41].
  apply lookup_insert_None in H4 as [H4 Ha40].
  apply lookup_insert_None in H3 as [H3 Ha32].
  apply lookup_insert_None in H3 as [H3 Ha31].
  apply lookup_insert_None in H3 as [H3 Ha30].
  apply lookup_insert_None in H2 as [H2 Ha21].
  apply lookup_insert_None in H2 as [H2 Ha20].
  apply lookup_insert_None in H1 as [H1 Ha10].
  destruct (Z.to_nat perqueueThreadPoolSize) as [|[|n]] eqn:Hn; [lia..|].
  unfold store. simpl. rewrite Hfirst. simpl.
  destruct (Z.eqb_spec (pthread_create (S calls)) 0); [done|]. simpl.
  unfold freeRunQueueInfo. simpl.
  rewrite lookup_insert_ne, lookup_insert_eq by done. simpl.
  rewrite lookup_delete_ne, lookup_delete_ne, lookup_insert_eq by done.
  rewrite lookup_insert_ne, lookup_insert_eq by done.
  rewrite Hn.
  change (<[0%nat:=Some calls]> (None :: None :: replicate n None))
    with (Some calls :: None :: replicate n None).
  cbn [firstn join_loop].
  rewrite Hjoin by (simpl; rewrite lookup_insert_eq; by eexists).
  eexists _, a1. split; [reflexivity|]. simpl.
  split; [done|]. split; [apply lookup_insert_eq|].
  exists a2, a3, a4. split.
  { rewrite lookup_delete_ne, lookup_delete_ne by done.
    by rewrite lookup_insert_ne, lookup_insert_eq by done. }
  split; [|apply lookup_delete_eq].
  rewrite lookup_delete_ne by done. apply lookup_delete_eq.
Qed.

End RegistryMore.

(** * The further properties on concrete runs *)

Section MoreRuns.
Import TestEnv Scenarios MoreScenarios.

(** X1, at an input: three runs selected as one batch. *)
Lemma scan_selection_shape_witness :
  [item 0 0; item 1 1; item 2 2] `sublist_of` items three_queue
  ∧ do_run fl_run || do_unblock fl_run || do_retry fl_run
    || device_complete fl_run = true.
Proof.
  destruct (scan_selection_shape (E := env) "CPU" three_world
              (items three_queue) fl_run [item 0 0; item 1 1; item 2 2])
    as (_ & Hsub & _ & _ & _ & Hflag & _).
  - by vm_compute.
  - done.
Defined.

(** X2, at the same input. *)
Lemma batch_members_ready_and_matching_witness :
  extends_batch "CPU" three_world (item 0 0)
  ∧ Forall (λ it, currentOpReady (info_of "CPU" three_world it) ≠ 0
                  ∧ currentOpBatchable (info_of "CPU" three_world it) ≠ 0
                  ∧ (match_of "CPU" three_world (item 0 0) it).1 ≠ 0)
      [item 1 1; item 2 2]
  ∧ ∃ pre rest, items three_queue = pre ++ item 0 0 :: rest
                ∧ [item 1 1; item 2 2] `sublist_of` rest.
Proof.
  apply (batch_members_ready_and_matching (E := env) "CPU" three_world
           (items three_queue) fl_run).
  - by vm_compute.
  - done.
Defined.

(** X3, at an input: sizes 1, 2 and 2 for a target of 4. *)
Lemma running_batch_size_within_target_witness :
  (tentative "CPU" grow_world (item 0 0) [item 1 1; item 2 2]).2
    ≤ batchsize (batch_info_of "CPU" grow_world (item 0 0)).
Proof.
  apply (running_batch_size_within_target (E := env) "CPU" grow_world).
  repeat split; by vm_compute.
Defined.

(** X4, at an input: the client of a complete DAG is unblocked and the
    node freed. *)
Lemma dag_complete_head_unblocks_and_retires_witness :
  ∃ tr,
    RedisAI_Run_ThreadMain_step "CPU" done_queue done_world =
      Some ({| items := []; next_addr := next_addr done_queue |},
            done_world, tr)
    ∧ (∀ c, client done_world (value (item 0 0)) = Some c →
            dagRefCount done_world (value (item 0 0)) = 0 →
            tr = [EvUnblock c (value (item 0 0)); EvFree (addr (item 0 0))])
    ∧ (client done_world (value (item 0 0)) = None
       ∨ dagRefCount done_world (value (item 0 0)) ≠ 0 →
       tr = [EvFree (addr (item 0 0))]).
Proof.
  apply (dag_complete_head_unblocks_and_retires (E := env) "CPU"
           done_queue done_world (item 0 0) []).
  - reflexivity.
  - by vm_compute.
Defined.

(** X5, at an input: a ready script operation in front of a model run. *)
Lemma ready_unbatchable_head_runs_alone_witness :
  ∃ q' tr,
    RedisAI_Run_ThreadMain_step "CPU" script_queue script_world =
      Some (q', (after_run "CPU" script_queue script_world [item 0 0]).2,
            EvRun (value (item 0 0)) "CPU" :: tr)
    ∧ run_count tr = 0%nat.
Proof.
  apply (ready_unbatchable_head_runs_alone (E := env) "CPU" script_queue
           script_world (item 0 0) [item 1 1]); by vm_compute.
Defined.

(** X6, at an input: the unblock of the complete DAG. *)
Lemma unblock_needs_zero_refcount_and_client_witness :
  client done_world 0 = Some 7%nat ∧ dagRefCount done_world 0 = 0
  ∧ ∃ it, it ∈ items done_queue ∧ value it = 0%nat
          ∧ (dagError done_world 0 ≠ 0
             ∨ dagComplete (info_of "CPU" done_world it) ≠ 0).
Proof.
  apply (unblock_needs_zero_refcount_and_client (E := env) "CPU" done_queue
           done_world {| items := []; next_addr := 1 |} done_world
           [EvUnblock 7 0; EvFree 0] 7%nat 0%nat).
  - by vm_compute.
  - apply list_elem_of_here.
Defined.

(** X7, at an input: a batch of two is one execution call. *)
Lemma one_execution_call_per_pass_witness :
  ∃ fl ev,
    scan_items "CPU" progress_world flags0 (items progress_queue)
      = Some (fl, ev)
    ∧ run_count [EvBatchedRun [0; 1]%nat "CPU"]
      = (if do_run fl then 1 else 0)%nat
    ∧ (do_run fl = false →
       (after_run "CPU" progress_queue progress_world
          [item 0 0; item 1 1]).2 = progress_world).
Proof.
  eapply (one_execution_call_per_pass (E := env) "CPU" progress_queue
            progress_world).
  by vm_compute.
Defined.

(** X8, at an input: the operation of the last DAG of a batch fails, and
    the first DAG, which has more to do and no error, is retired too. *)
Lemma error_after_run_retires_all_evicted_witness :
  ∃ tr,
    RedisAI_Run_ThreadMain_step "CPU" last_fails_queue last_fails_world =
      Some ((after_run "CPU" last_fails_queue last_fails_world
               [item 0 0; item 1 1]).1,
            (after_run "CPU" last_fails_queue last_fails_world
               [item 0 0; item 1 1]).2, tr)
    ∧ ∀ it, it ∈ [item 0 0; item 1 1] → EvFree (addr it) ∈ tr.
Proof.
  apply (error_after_run_retires_all_evicted (E := env) "CPU"
           last_fails_queue last_fails_world fl_run
           [item 0 0; item 1 1] 1%nat).
  - by vm_compute.
  - reflexivity.
  - reflexivity.
  - by vm_compute.
Defined.

(** X9, at an input: a DAG whose error field reads 2 after its run. *)
Lemma other_error_value_drops_evicted_witness :
  ∃ tr,
    RedisAI_Run_ThreadMain_step "CPU" odd_error_queue odd_error_world =
      Some ((after_run "CPU" odd_error_queue odd_error_world [item 0 0]).1,
            (after_run "CPU" odd_error_queue odd_error_world [item 0 0]).2,
            tr)
    ∧ ∀ a, EvFree a ∉ tr.
Proof.
  apply (other_error_value_drops_evicted (E := env) "CPU" odd_error_queue
           odd_error_world fl_run [item 0 0] 0%nat).
  - by vm_compute.
  - reflexivity.
  - reflexivity.
  - reflexivity.
  - by vm_compute.
  - by vm_compute.
Defined.

(** X10, at an input: two runs of size 1 for a minimum batch size of 4. *)
Lemma all_below_minimum_waits_witness :
  RedisAI_Run_ThreadMain_step "CPU" starved_queue starved_world = None
  ∧ ∀ n, RedisAI_Run_ThreadMain_drain "CPU" (S n) starved_queue starved_world
         = (starved_queue, starved_world, [], true).
Proof.
  apply (all_below_minimum_waits (E := env) "CPU" starved_queue
           starved_world).
  intros [|x [|y pre]] it rest Heq; vm_compute in Heq.
  - injection Heq as <- <-. repeat split; by vm_compute.
  - injection Heq as <- <- <-. repeat split; by vm_compute.
  - destruct pre; discriminate.
Defined.

(** X11, at an input: the three run infos are still queued after the
    retry. *)
Lemma retry_keeps_all_run_infos_witness :
  [1; 0; 2]%nat ≡ₚ values waiting_queue.
Proof.
  apply (retry_keeps_all_run_infos (E := env) "CPU" waiting_queue
           waiting_world
           {| do_unblock := false; do_run := false; do_retry := true;
              device_complete := false |} [item 0 0]
           {| items := [item 4 1; item 3 0; item 2 2]; next_addr := 5 |}
           waiting_world []).
  - apply (bool_decide_unpack _). by vm_compute.
  - by vm_compute.
  - reflexivity.
  - by vm_compute.
Defined.

(** X12, at an input: the node freed is the one of the complete DAG. *)
Lemma frees_only_evicted_nodes_witness :
  ∃ fl ev it,
    scan_items "CPU" done_world flags0 (items done_queue) = Some (fl, ev)
    ∧ it ∈ ev ∧ it ∈ items done_queue ∧ addr it = 0%nat.
Proof.
  apply (frees_only_evicted_nodes (E := env) "CPU" done_queue done_world
           {| items := []; next_addr := 1 |} done_world
           [EvUnblock 7 0; EvFree 0]).
  - by vm_compute.
  - apply list_elem_of_further, list_elem_of_here.
Defined.

(** X13, at an input: five passes on a run below the minimum batch size
    followed by a DAG that waits for an input. *)
Lemma retry_behind_small_batch_spins_witness :
  ∃ q',
    RedisAI_Run_ThreadMain_drain "CPU" 5 spin_queue spin_world
      = (q', spin_world, [], false)
    ∧ values q' = values spin_queue.
Proof.
  apply (retry_behind_small_batch_spins (E := env) "CPU" 5 spin_queue
           spin_world (item 0 0) (item 1 1)).
  - reflexivity.
  - by vm_compute.
  - repeat split; by vm_compute.
  - by vm_compute.
  - by vm_compute.
  - by vm_compute.
  - by vm_compute.
  - by vm_compute.
Defined.

(** X16, at an input: the first call for ["cpu"] registers ["CPU"]. *)
Lemma ensureRunQueue_result_witness :
  (REDISMODULE_OK = REDISMODULE_OK
   ∧ ∃ info d', Some 1%nat = Some info
                ∧ Registry.run_queues cpu_registry = Some d'
                ∧ d' !! strToUpper "cpu" = Some info)
  ∨ (REDISMODULE_OK = REDISMODULE_ERR
     ∧ Registry.run_queues cpu_registry
       = Registry.run_queues Registry.init).
Proof.
  apply (ensureRunQueue_result 2 create_ok Registry.join_live "cpu"
           Registry.init).
  by vm_compute.
Defined.

(** X17, at an input: a call for ["gpu:0"], failing at its first thread,
    on a registry that holds ["CPU"]. *)
Lemma ensureRunQueue_keeps_entries_witness :
  ∃ d', Registry.run_queues
          (outcome_state
             (Registry.ensureRunQueue 2 create_eagain Registry.join_live
                "gpu:0" cpu_registry)) = Some d'
        ∧ (∀ key entry, ({[ "CPU" := 1%nat ]} : gmap string nat) !! key
                        = Some entry → d' !! key = Some entry)
        ∧ (∀ key, key ≠ strToUpper "gpu:0" →
                  d' !! key = ({[ "CPU" := 1%nat ]} : gmap string nat) !! key).
Proof.
  apply (ensureRunQueue_keeps_entries 2 create_eagain Registry.join_live
           "gpu:0" cpu_registry).
  by vm_compute.
Defined.

(** X18, at an input: a second device on a registry that holds
    ["CPU"]. *)
Lemma ensureRunQueue_keeps_keys_normalized_witness :
  ∃ d', Registry.run_queues
          (outcome_state
             (Registry.ensureRunQueue 2 create_ok Registry.join_live
                "gpu:0" cpu_registry)) = Some d'
        ∧ normalized d'.
Proof.
  apply (ensureRunQueue_keeps_keys_normalized 2 create_ok Registry.join_live
           "gpu:0" cpu_registry {[ "CPU" := 1%nat ]}).
  - by vm_compute.
  - intros key [entry Hk]. apply lookup_singleton_Some in Hk as [<- _].
    reflexivity.
Defined.

(** X19, at an input: the first call for ["cpu"] with two workers. *)
Lemma ensureRunQueue_creates_record_witness :
  ∃ info s',
    Registry.ensureRunQueue 2 create_ok Registry.join_live "cpu"
      Registry.init = Registry.Returned REDISMODULE_OK (Some info) s'
    ∧ Registry.run_queues s' = Some {[ "CPU" := info ]}
    ∧ Registry.spawn_calls s' = 2%nat.
Proof.
  destruct (ensureRunQueue_creates_record 2 create_ok Registry.join_live
              Registry.init ∅ "cpu")
    as (info & rq & dev & th & handles & s' & Hcall & Hrq & _ & _ & _ & _
        & _ & _ & Hcalls); [reflexivity..|].
  exists info, s'. split; [done|]. split; [|done].
  rewrite Hrq. by rewrite insert_empty.
Defined.

(** X20, at an input: the record of ["CPU"] once its two workers have
    ended, so that the joins return 0. *)
Lemma freeRunQueueInfo_frees_record_witness :
  let join0 : Registry.state → option nat → option Z := λ _ _, Some 0 in
  let s' := (Registry.freeRunQueueInfo 2 join0 1 cpu_registry).2 in
  let s2 := Registry.RedisModule_Free 3
              (Registry.RedisModule_Free 2 cpu_registry) in
  Registry.heap s'
    = delete 1%nat (delete 4%nat (delete 3%nat (delete 2%nat
        (Registry.heap cpu_registry))))
  ∧ Registry.run_queues s' = Registry.run_queues cpu_registry
  ∧ Registry.workers s' = Registry.workers cpu_registry
  ∧ Forall (λ slot, is_Some (join0 s2 slot)) [Some 0%nat; Some 1%nat]
  ∧ (Forall (λ slot, join0 s2 slot = Some 0) [Some 0%nat; Some 1%nat] →
     REDISMODULE_OK = REDISMODULE_OK)
  ∧ (¬ Forall (λ slot, join0 s2 slot = Some 0) [Some 0%nat; Some 1%nat] →
     REDISMODULE_OK = REDISMODULE_ERR).
Proof.
  intros join0 s' s2.
  apply (freeRunQueueInfo_frees_record 2 join0 cpu_registry 1 2 3 4
           [Some 0%nat; Some 1%nat] REDISMODULE_OK s'); by vm_compute.
Defined.

(** X21, at an input: two workers per queue and a second
    [pthread_create] that fails. *)
Lemma spawn_failure_after_worker_started_blocks_witness :
  ∃ s' info,
    Registry.ensureRunQueue 2 create_once Registry.join_live "cpu"
      Registry.init = Registry.Blocked s'
    ∧ Registry.run_queues s' = Registry.run_queues Registry.init
    ∧ Registry.workers s' !! Registry.spawn_calls Registry.init = Some info
    ∧ ∃ rq dev th,
        Registry.heap s' !! info
          = Some (Registry.BInfo (Some rq) (Some dev) (Some th))
        ∧ Registry.heap s' !! rq = None ∧ Registry.heap s' !! dev = None.
Proof.
  apply (spawn_failure_after_worker_started_blocks 2 create_once
           Registry.join_live Registry.init ∅ "cpu").
  - reflexivity.
  - reflexivity.
  - lia.
  - reflexivity.
  - by vm_compute.
  - intros s' t [info Ht]. simpl. by rewrite Ht.
Defined.

End MoreRuns.
